(** * stream-cg-benchmark-go: a benchmark of Redis stream consumer groups

    A shallow embedding of [main.go] and [group-consumer.go].

    The program is a set of goroutines around four process-wide globals
    ([totalMessagesRead], [totalMessagesAcked], [readLatencies],
    [ackLatencies]).  One loop iteration of a consumer, one tick of the
    reporter and one statement of [main] are the atomic steps of the model;
    everything the code obtains from outside (replies of the Redis
    connection, clock readings, the verdict of the histogram library, the
    operating-system signal) is an explicit input of the step that reads it. *)

From Stdlib Require Import ZArith String List Lia DecimalString.
From Stdlib Require Import DecimalPos DecimalZ.
From stdpp Require Import base list.

Open Scope Z_scope.

(** ** Machine integers and time *)

(** [uint64] arithmetic wraps around. *)
Definition u64_modulus : Z := 2 ^ 64.
Definition u64_add (a b : Z) : Z := (a + b) mod u64_modulus.
Definition u64_sub (a b : Z) : Z := (a - b) mod u64_modulus.

Definition minDuration : Z := - 2 ^ 63.
Definition maxDuration : Z := 2 ^ 63 - 1.

(** A [time.Time] is its reading of the clock in nanoseconds; a
    [time.Duration] is an [int64] count of nanoseconds. *)
Definition Time := Z.
Definition Duration := Z.

(** [t.Sub(u)]: the difference, saturated to the range of [Duration]. *)
Definition Sub (t u : Time) : Duration :=
  Z.max minDuration (Z.min maxDuration (t - u)).

(** [d.Microseconds()]: integer division, truncated towards zero. *)
Definition Microseconds (d : Duration) : Z := Z.quot d 1000.

(** [%d] of [fmt.Sprintf]. *)
Definition format_int (n : Z) : string := NilZero.string_of_int (Z.to_int n).

(** An [error] value is represented by its message; [None] is [nil]. *)
Definition error := option string.

(** ** Redis stream data (radix) *)

(** The fields [Time] and [Seq] of [radix.StreamEntryID], both [uint64]. *)
Record StreamEntryID := { Time_ : Z; Seq : Z }.

Definition StreamEntryID_String (id : StreamEntryID) : string :=
  (format_int (Time_ id) ++ "-" ++ format_int (Seq id))%string.

Record StreamEntry := { ID : StreamEntryID; Fields : list (string * string) }.

Record StreamEntries := { Stream : string; Entries : list StreamEntry }.

(** A command handed to [conn.Do]. *)
Inductive command := Cmd (name : string) (args : list string).

(** ** The latency histograms (hdrhistogram)

    The histogram library is not part of the repository.  The model keeps
    the three arguments of [hdrhistogram.New] and the values accepted so
    far; whether [RecordValue] accepts a value is an input of the step. *)

Record Histogram := {
  lowestTrackableValue : Z;
  highestTrackableValue : Z;
  significantFigures : Z;
  recorded : list Z
}.

Definition hdr_New (lo hi sig : Z) : Histogram :=
  {| lowestTrackableValue := lo; highestTrackableValue := hi;
     significantFigures := sig; recorded := [] |}.

Definition hdr_record (h : Histogram) (v : Z) : Histogram :=
  {| lowestTrackableValue := lowestTrackableValue h;
     highestTrackableValue := highestTrackableValue h;
     significantFigures := significantFigures h;
     recorded := recorded h ++ [v] |}.

(** ** Process-wide globals ([main.go], lines 20-23) *)

Record globals := {
  totalMessagesRead : Z;
  totalMessagesAcked : Z;
  readLatencies : Histogram;
  ackLatencies : Histogram
}.

(** [main], lines 46-49. *)
Definition init_globals : globals :=
  {| totalMessagesRead := 0;
     totalMessagesAcked := 0;
     readLatencies := hdr_New 1 90000000 3;
     ackLatencies := hdr_New 1 90000000 3 |}.

(** ** The consumer goroutine ([group-consumer.go]) *)

(** Arguments of [groupConsumerRoutine] that the loop reads. *)
Record consumer := {
  groupName : string;
  consumerName : string;
  keyName : string;
  pcount : Z
}.

(** The local variables that live across iterations. *)
Record worker := {
  ids : list StreamEntryID;
  done : bool;
  entries : list StreamEntries
}.

(** Lines 19-26: state on entering the loop. *)
Definition init_worker : worker :=
  {| ids := []; done := false; entries := [] |}.

Definition readCmdArgs (c : consumer) : list string :=
  ["GROUP"; groupName c; consumerName c;
   "COUNT"; "1";
   "STREAMS"; keyName c; ">"]%string.

(** What one call of [conn.Do] followed by one [RecordValue] obtains from
    outside: the error of the call, the value unmarshalled into [entries]
    (read by the fetch branch only), the two clock readings around the call
    and the error of [RecordValue]. *)
Record io := {
  cmd_err : error;
  cmd_reply : list StreamEntries;
  t_start : Time;
  t_end : Time;
  rec_err : error
}.

(** What an iteration did to the stream, when the loop goes on. *)
Inductive event :=
| EvFetch (id : StreamEntryID)   (* line 53-54 *)
| EvExhausted                    (* line 50 *)
| EvAck (id : StreamEntryID).    (* line 59-69 *)

(** How an iteration ends. *)
Inductive outcome :=
| Next (ev : event) (g : globals) (w : worker)
| Return_            (* [return]; the deferred [wg.Done()] runs *)
| Fatal (msg : string) (* [log.Fatal]: the process exits *)
| Panic.             (* index out of range *)

(** The [select] and the [if / else if / else] of lines 33-72. *)
Inductive branch := BrStop | BrFetch | BrAck | BrReturn.

Definition select_branch (c : consumer) (stop_closed : bool) (w : worker)
  : branch :=
  if stop_closed then BrStop
  else if (Z.of_nat (length (ids w)) <? pcount c) && negb (done w) then BrFetch
  else if Z.of_nat (length (ids w)) >? 0 then BrAck
  else BrReturn.

(** The command each branch sends over the connection. *)
Definition request (c : consumer) (w : worker) (b : branch) : option command :=
  match b with
  | BrFetch => Some (Cmd "XREADGROUP" (readCmdArgs c))
  | BrAck =>
      match ids w !! 0%nat with
      | Some id =>
          Some (Cmd "XACK" [keyName c; groupName c; StreamEntryID_String id])
      | None => None
      end
  | BrStop | BrReturn => None
  end.

Definition record_fatal (err : string) : string :=
  ("Received an error while recording latencies: " ++ err)%string.

(** Lines 38-54. *)
Definition fetch (e : io) (g : globals) (w : worker) : outcome :=
  match cmd_err e with
  | Some err => Fatal err
  | None =>
      let entries' := cmd_reply e in
      let duration := Sub (t_end e) (t_start e) in
      match rec_err e with
      | Some err => Fatal (record_fatal err)
      | None =>
          let g1 :=
            {| totalMessagesRead := totalMessagesRead g;
               totalMessagesAcked := totalMessagesAcked g;
               readLatencies :=
                 hdr_record (readLatencies g) (Microseconds duration);
               ackLatencies := ackLatencies g |} in
          if Z.of_nat (length entries') =? 0 then
            Next EvExhausted g1
              {| ids := ids w; done := true; entries := entries' |}
          else
            match entries' !! 0%nat with
            | None => Panic
            | Some batch =>
                match Entries batch !! 0%nat with
                | None => Panic
                | Some x =>
                    Next (EvFetch (ID x))
                      {| totalMessagesRead :=
                           u64_add (totalMessagesRead g1) 1;
                         totalMessagesAcked := totalMessagesAcked g1;
                         readLatencies := readLatencies g1;
                         ackLatencies := ackLatencies g1 |}
                      {| ids := ids w ++ [ID x]; done := done w;
                         entries := entries' |}
                end
            end
      end
  end.

(** Lines 56-69. *)
Definition ack (e : io) (g : globals) (w : worker) : outcome :=
  match ids w !! 0%nat with
  | None => Panic
  | Some id =>
      let ids' := drop 1 (ids w) in
      match cmd_err e with
      | Some err => Fatal err
      | None =>
          let duration := Sub (t_end e) (t_start e) in
          match rec_err e with
          | Some err => Fatal (record_fatal err)
          | None =>
              Next (EvAck id)
                {| totalMessagesRead := totalMessagesRead g;
                   totalMessagesAcked := u64_add (totalMessagesAcked g) 1;
                   readLatencies := readLatencies g;
                   ackLatencies :=
                     hdr_record (ackLatencies g) (Microseconds duration) |}
                {| ids := ids'; done := done w; entries := entries w |}
          end
      end
  end.

(** One iteration of the [for] loop of [groupConsumerRoutine]. *)
Definition iteration (c : consumer) (stop_closed : bool) (e : io)
    (g : globals) (w : worker) : outcome :=
  match select_branch c stop_closed w with
  | BrStop => Return_
  | BrFetch => fetch e g w
  | BrAck => ack e g w
  | BrReturn => Return_
  end.

(** Lines 77-90: a fresh connection, named after the consumer.  Either call
    failing is fatal; [Some msg] is the message of that [log.Fatal]. *)
Record boot_io := { boot_dial_err : error; setname_err : error }.

Definition bootstrapGroupConsumer (b : boot_io) : option string :=
  match boot_dial_err b with
  | Some err => Some err
  | None =>
      match setname_err b with
      | Some err => Some err
      | None => None
      end
  end.

(** ** The process: globals, stop channel, wait group and goroutines *)

Inductive goroutine :=
| Starting              (* spawned, before the loop *)
| Running (w : worker)  (* at the top of the loop *)
| Exited.               (* returned; [wg.Done()] has run *)

Record system := {
  shared : globals;
  stopChan_closed : bool;
  wg : Z;
  routines : list (consumer * goroutine)
}.

(** [main], lines 46-51 and 82. *)
Definition init_system : system :=
  {| shared := init_globals; stopChan_closed := false; wg := 0;
     routines := [] |}.

Inductive status :=
| Live (s : system)
| Crashed (msg : string)
| Panicked.

(** The steps that touch the shared state.  [main] is the only goroutine
    that reads [wg], so [wg.Add(1)] and the [go] statement that follows it
    (lines 86-87) form one step. *)
Inductive label :=
| LSpawn (c : consumer)
| LBoot (i : nat) (b : boot_io)
| LIter (i : nat) (e : io)
| LClose
| LWait.

Definition set_routine (s : system) (i : nat) (c : consumer) (r : goroutine)
    (g : globals) (wg' : Z) : system :=
  {| shared := g; stopChan_closed := stopChan_closed s; wg := wg';
     routines := <[i := (c, r)]> (routines s) |}.

(** One step of the process, with the events it adds to the log; [None]
    when the step cannot be taken in [s] (no such goroutine at that point,
    or [wg.Wait()] still blocked). *)
Definition step (l : label) (s : system) : option (list (nat * event) * status) :=
  match l with
  | LSpawn c =>
      Some ([], Live {| shared := shared s;
                        stopChan_closed := stopChan_closed s;
                        wg := wg s + 1;
                        routines := routines s ++ [(c, Starting)] |})
  | LBoot i b =>
      match routines s !! i with
      | Some (c, Starting) =>
          match bootstrapGroupConsumer b with
          | Some msg => Some ([], Crashed msg)
          | None =>
              Some ([], Live (set_routine s i c (Running init_worker)
                                (shared s) (wg s)))
          end
      | _ => None
      end
  | LIter i e =>
      match routines s !! i with
      | Some (c, Running w) =>
          match iteration c (stopChan_closed s) e (shared s) w with
          | Next ev g w' =>
              Some ([(i, ev)], Live (set_routine s i c (Running w') g (wg s)))
          | Return_ =>
              Some ([], Live (set_routine s i c Exited (shared s) (wg s - 1)))
          | Fatal msg => Some ([], Crashed msg)
          | Panic => Some ([], Panicked)
          end
      | _ => None
      end
  | LClose =>
      if stopChan_closed s then Some ([], Panicked)
      else Some ([], Live {| shared := shared s; stopChan_closed := true;
                             wg := wg s; routines := routines s |})
  | LWait => if wg s =? 0 then Some ([], Live s) else None
  end.

(** States the process can be in, with the log of events so far. *)
Inductive reachable : list (nat * event) -> system -> Prop :=
| reach_init : reachable [] init_system
| reach_step l s log evs s' :
    reachable log s ->
    step l s = Some (evs, Live s') ->
    reachable (log ++ evs) s'.

(** Projections of the log. *)
Definition fetched_by (i : nat) (log : list (nat * event)) : list StreamEntryID :=
  flat_map (fun p => match p with
                     | (j, EvFetch id) => if Nat.eqb i j then [id] else []
                     | _ => []
                     end) log.

Definition acked_by (i : nat) (log : list (nat * event)) : list StreamEntryID :=
  flat_map (fun p => match p with
                     | (j, EvAck id) => if Nat.eqb i j then [id] else []
                     | _ => []
                     end) log.

Definition is_fetch (p : nat * event) : bool :=
  match p with (_, EvFetch _) => true | _ => false end.

Definition is_ack (p : nat * event) : bool :=
  match p with (_, EvAck _) => true | _ => false end.

Definition fetches (log : list (nat * event)) : Z :=
  Z.of_nat (length (filter (fun p => is_fetch p = true) log)).

Definition acks (log : list (nat * event)) : Z :=
  Z.of_nat (length (filter (fun p => is_ack p = true) log)).

(** The pending window of a goroutine; empty outside the loop. *)
Definition window (r : consumer * goroutine) : list StreamEntryID :=
  match r with
  | (_, Running w) => ids w
  | _ => []
  end.

Definition exited (r : consumer * goroutine) : bool :=
  match r with (_, Exited) => true | _ => false end.

(** Sum of a measure over the goroutines. *)
Definition total (f : consumer * goroutine -> Z)
    (rs : list (consumer * goroutine)) : Z :=
  foldr (fun r acc => f r + acc) 0 rs.

(** Identifiers fetched and not yet acknowledged, over all goroutines. *)
Definition pending (rs : list (consumer * goroutine)) : Z :=
  total (fun r => Z.of_nat (length (window r))) rs.

(** Goroutines that have not returned. *)
Definition active (rs : list (consumer * goroutine)) : Z :=
  total (fun r => if exited r then 0 else 1) rs.

(** ** The reporter ([updateCLI], [main.go] lines 136-179) *)

(** An entry of [messageRateTs] is the [float64] quotient of a message count
    by a number of seconds; the model keeps the two operands. *)
Record rate := { messages : Z; took : Duration }.

Record reporter := {
  start : Time;
  prevTime : Time;
  prevMessageCount : Z;
  messageRateTs : list rate
}.

(** Lines 138-141, with the two readings of the clock. *)
Definition init_reporter (t0 t1 : Time) : reporter :=
  {| start := t0; prevTime := t1; prevMessageCount := 0;
     messageRateTs := [] |}.

(** The five values [updateCLI] returns. *)
Record report := {
  closed : bool;
  start_time : Time;
  duration : Duration;
  totalMessages : Z;
  rateTs : list rate
}.

(** The case the [select] of line 148 takes, with the globals as they are
    when it is taken (a turn of the loop is one step: all its reads of the
    counters see the same values) and the clock readings it makes: [now]
    (line 151), [now_start] (line 155, when reached) and [now_end] (the
    [time.Since] of the [return]). *)
Inductive select_case :=
| CaseTick (g : globals) (now now_start now_end : Time)
| CaseSignal (g : globals) (now_end : Time).

Definition seen (ev : select_case) : globals :=
  match ev with
  | CaseTick g _ _ _ => g
  | CaseSignal g _ => g
  end.

(** One turn of the loop: the updated locals, or the values returned. *)
Definition updateCLI_step (count : Z) (ev : select_case) (r : reporter)
  : reporter + report :=
  match ev with
  | CaseTick g now now_start now_end =>
      let took := Sub now (prevTime r) in
      let messageRate :=
        {| messages := u64_sub (totalMessagesRead g) (prevMessageCount r);
           took := took |} in
      let start' :=
        if (prevMessageCount r =? 0) && negb (totalMessagesRead g =? 0)
        then now_start else start r in
      let messageRateTs' :=
        if negb (totalMessagesRead g =? 0)
        then messageRateTs r ++ [messageRate] else messageRateTs r in
      if totalMessagesAcked g =? count then
        inr {| closed := false; start_time := start';
               duration := Sub now_end start';
               totalMessages := totalMessagesRead g;
               rateTs := messageRateTs' |}
      else
        inl {| start := start'; prevTime := now;
               prevMessageCount := totalMessagesRead g;
               messageRateTs := messageRateTs' |}
  | CaseSignal g now_end =>
      inr {| closed := true; start_time := start r;
             duration := Sub now_end (start r);
             totalMessages := totalMessagesRead g;
             rateTs := messageRateTs r |}
  end.

(** The loop over the cases taken; [None] once [updateCLI] has returned. *)
Fixpoint updateCLI_turns (count : Z) (evs : list select_case) (r : reporter)
  : option reporter :=
  match evs with
  | [] => Some r
  | ev :: evs' =>
      match updateCLI_step count ev r with
      | inl r' => updateCLI_turns count evs' r'
      | inr _ => None
      end
  end.


Definition is_tick (ev : select_case) : bool :=
  match ev with CaseTick _ _ _ _ => true | CaseSignal _ _ => false end.


(** ** The orchestrator ([main]) *)

Record flags := {
  host : string;
  port : Z;
  key_name : string;
  message_count : Z;
  group_name : string;
  group_consumer_prefix : string;
  group_consumer_max_pending : Z;
  group_consumers_count : Z;
  json_out_file : string;
  client_update_tick : Z
}.

(** What [main] does, in program order.  [ADo c] is [conn.Do(c)] on the
    control connection opened by [ADial]. *)
Inductive action :=
| ADial (addr : string)
| ADo (c : command)
| AGo (addr : string) (c : consumer)   (* [wg.Add(1)]; [go ...] *)
| AUpdateCLI (count : Z)
| APrintSummary
| APrintLatencySummary (n : string)
| AWriteFile (name : string)
| AClose                               (* [close(stopChan)] *)
| AWait.                               (* [wg.Wait()] *)

(** Actions so far, and either the message of a [log.Fatal] or a value. *)
Definition M (A : Type) : Type := list action * (string + A).

Definition ret {A} (a : A) : M A := ([], inr a).

Definition bind {A B} (m : M A) (k : A -> M B) : M B :=
  match m with
  | (tr, inl msg) => (tr, inl msg)
  | (tr, inr a) => let (tr', r) := k a in (tr ++ tr', r)
  end.

Notation "x <- m ;; k" := (bind m (fun x => k))
  (at level 90, m at level 80, right associativity).
Notation "m ;;; k" := (bind m (fun _ => k))
  (at level 90, right associativity).

Definition act (a : action) : M unit := ([a], inr tt).

(** [if err != nil { log.Fatal(err) }] *)
Definition check (err : error) : M unit :=
  match err with
  | Some msg => ([], inl msg)
  | None => ret tt
  end.

(** Replies of the control connection. *)
Record setup_io := {
  dial_err : error;
  xlen_err : error;
  xlen_reply : Z;
  destroy_err : error;
  create_err : error
}.

Definition connectionStr (f : flags) : string :=
  (host f ++ ":" ++ format_int (port f))%string.

Definition consumer_of (f : flags) (consumer_id : Z) : consumer :=
  {| groupName := group_name f;
     consumerName := (group_consumer_prefix f ++ format_int consumer_id)%string;
     keyName := key_name f;
     pcount := group_consumer_max_pending f |}.

(** Lines 52-79: dial, resolve the target, reset the group. *)
Definition main_setup (f : flags) (e : setup_io) : M Z :=
  act (ADial (connectionStr f)) ;;;
  check (dial_err e) ;;;
  count <- (if message_count f =? 0 then
              act (ADo (Cmd "XLEN" [key_name f])) ;;;
              check (xlen_err e) ;;;
              ret (xlen_reply e)
            else ret (message_count f)) ;;
  act (ADo (Cmd "XGROUP" ["DESTROY"; key_name f; group_name f]%string)) ;;;
  check (destroy_err e) ;;;
  act (ADo (Cmd "XGROUP" ["CREATE"; key_name f; group_name f; "0"]%string)) ;;;
  check (create_err e) ;;;
  ret count.

(** Lines 84-88. *)
Definition main_spawn (f : flags) : M unit :=
  (map (fun consumer_id => AGo (connectionStr f) (consumer_of f consumer_id))
       (seqZ 1 (group_consumers_count f)),
   inr tt).

(** Errors of [json.MarshalIndent] and [ioutil.WriteFile]. *)
Record finish_io := { marshal_err : error; write_err : error }.

(** Lines 97-134, given what [updateCLI] returned. *)
Definition main_finish (f : flags) (r : report) (e : finish_io) : M unit :=
  act APrintSummary ;;;
  act (APrintLatencySummary "XREADGROUP") ;;;
  act (APrintLatencySummary "XACK") ;;;
  (if negb (String.eqb (json_out_file f) "") then
     check (marshal_err e) ;;;
     act (AWriteFile (json_out_file f)) ;;;
     check (write_err e)
   else ret tt) ;;;
  if closed r then ret tt
  else act AClose ;;; act AWait.

Definition main (f : flags) (se : setup_io) (r : report) (fe : finish_io)
  : M unit :=
  count <- main_setup f se ;;
  main_spawn f ;;;
  act (AUpdateCLI count) ;;;
  main_finish f r fe.

Definition is_go (a : action) : bool :=
  match a with AGo _ _ => true | _ => false end.

Definition is_shutdown (a : action) : bool :=
  match a with AClose | AWait => true | _ => false end.

Definition report_actions : list action :=
  [APrintSummary; APrintLatencySummary "XREADGROUP";
   APrintLatencySummary "XACK"].

Definition xlen_cmd (f : flags) : action := ADo (Cmd "XLEN" [key_name f]).
Definition destroy_cmd (f : flags) : action :=
  ADo (Cmd "XGROUP" ["DESTROY"; key_name f; group_name f]%string).
Definition create_cmd (f : flags) : action :=
  ADo (Cmd "XGROUP" ["CREATE"; key_name f; group_name f; "0"]%string).

(** A schedule that keeps the process alive, with the events it logs. *)
Fixpoint run (ls : list label) (s : system)
  : option (list (nat * event) * system) :=
  match ls with
  | [] => Some ([], s)
  | l :: ls' =>
      match step l s with
      | Some (evs, Live s') =>
          match run ls' s' with
          | Some (evs', s'') => Some (evs ++ evs', s'')
          | None => None
          end
      | _ => None
      end
  end.

(** ** Sample inputs *)

Definition sample_consumer (n : Z) : consumer :=
  {| groupName := "group"; consumerName := "consumer-1";
     keyName := "mystream"; pcount := n |}.

Definition sample_id (n : Z) : StreamEntryID :=
  {| Time_ := 1526919030474; Seq := n |}.

Definition sample_reply (n : Z) : list StreamEntries :=
  [{| Stream := "mystream";
      Entries := [{| ID := sample_id n; Fields := [("k", "v")]%string |}] |}].

(** A call that succeeds in 250 microseconds, with the given reply. *)
Definition io_ok (reply : list StreamEntries) : io :=
  {| cmd_err := None; cmd_reply := reply;
     t_start := 1000000; t_end := 1250000; rec_err := None |}.

Definition boot_ok : boot_io :=
  {| boot_dial_err := None; setname_err := None |}.

(** One consumer with a window of two: two fetches, then an acknowledge. *)
Definition sample_schedule : list label :=
  [LSpawn (sample_consumer 2); LBoot 0 boot_ok;
   LIter 0 (io_ok (sample_reply 0)); LIter 0 (io_ok (sample_reply 1));
   LIter 0 (io_ok [])].

Definition sample_log : list (nat * event) :=
  match run sample_schedule init_system with
  | Some (log, _) => log
  | None => []
  end.

Definition sample_state : system :=
  match run sample_schedule init_system with
  | Some (_, s) => s
  | None => init_system
  end.

(** A consumer started with a negative [-group-consumer-max-pending]. *)
Definition negative_schedule : list label :=
  [LSpawn (sample_consumer (-1)); LBoot 0 boot_ok].

Definition negative_state : system :=
  match run negative_schedule init_system with
  | Some (_, s) => s
  | None => init_system
  end.

(** The arguments a histogram was created with. *)
Definition domain (h : Histogram) : Z * Z * Z :=
  (lowestTrackableValue h, highestTrackableValue h, significantFigures h).

(** A reply is well formed when its first batch, if any, has an entry. *)
Definition first_batch_nonempty (reply : list StreamEntries) : Prop :=
  forall batch, reply !! 0%nat = Some batch -> Entries batch <> [].

(** A reply whose only batch has no entry. *)
Definition empty_batch_reply : list StreamEntries :=
  [{| Stream := "mystream"; Entries := [] |}].


(** Globals with the given counters. *)
Definition counters (fetched acked : Z) : globals :=
  {| totalMessagesRead := fetched; totalMessagesAcked := acked;
     readLatencies := hdr_New 1 90000000 3;
     ackLatencies := hdr_New 1 90000000 3 |}.



Definition final_report : report :=
  {| closed := false; start_time := 1001; duration := 1001;
     totalMessages := 2;
     rateTs := [{| messages := 1; took := 999 |};
                {| messages := 1; took := 1000 |}] |}.

(** The default flags, with a JSON output file. *)
Definition sample_flags : flags :=
  {| host := "127.0.0.1"; port := 6379; key_name := "mystream";
     message_count := 0; group_name := "group";
     group_consumer_prefix := "consumer-";
     group_consumer_max_pending := 1; group_consumers_count := 2;
     json_out_file := "out.json"; client_update_tick := 1 |}.

(** A stream of five entries; every command succeeds. *)
Definition setup_ok : setup_io :=
  {| dial_err := None; xlen_err := None; xlen_reply := 5;
     destroy_err := None; create_err := None |}.

(** The same, but [XGROUP DESTROY] is answered with an error. *)
Definition setup_destroy_fails : setup_io :=
  {| dial_err := None; xlen_err := None; xlen_reply := 5;
     destroy_err := Some "ERR no such key"%string; create_err := None |}.

Definition finish_ok : finish_io := {| marshal_err := None; write_err := None |}.

Definition json_actions (f : flags) : list action :=
  if negb (String.eqb (json_out_file f) "") then [AWriteFile (json_out_file f)]
  else [].

Definition shutdown_actions (r : report) : list action :=
  if closed r then [] else [AClose; AWait].

(** The target handed to [updateCLI]. *)
Definition target (f : flags) (e : setup_io) : Z :=
  if message_count f =? 0 then xlen_reply e else message_count f.

Definition xlen_actions (f : flags) : list action :=
  if message_count f =? 0 then [xlen_cmd f] else [].

(** ** Specification vocabulary *)

(** The three ways an iteration lets the loop go on. *)
Inductive iter_next (c : consumer) (e : io) (g : globals) (w : worker)
  : event -> globals -> worker -> Prop :=
| next_fetch batch x :
    Z.of_nat (length (ids w)) < pcount c ->
    done w = false ->
    cmd_reply e !! 0%nat = Some batch ->
    Entries batch !! 0%nat = Some x ->
    iter_next c e g w (EvFetch (ID x))
      {| totalMessagesRead := u64_add (totalMessagesRead g) 1;
         totalMessagesAcked := totalMessagesAcked g;
         readLatencies :=
           hdr_record (readLatencies g)
             (Microseconds (Sub (t_end e) (t_start e)));
         ackLatencies := ackLatencies g |}
      {| ids := ids w ++ [ID x]; done := done w; entries := cmd_reply e |}
| next_exhausted :
    Z.of_nat (length (ids w)) < pcount c ->
    done w = false ->
    cmd_reply e = [] ->
    iter_next c e g w EvExhausted
      {| totalMessagesRead := totalMessagesRead g;
         totalMessagesAcked := totalMessagesAcked g;
         readLatencies :=
           hdr_record (readLatencies g)
             (Microseconds (Sub (t_end e) (t_start e)));
         ackLatencies := ackLatencies g |}
      {| ids := ids w; done := true; entries := cmd_reply e |}
| next_ack id rest :
    ids w = id :: rest ->
    iter_next c e g w (EvAck id)
      {| totalMessagesRead := totalMessagesRead g;
         totalMessagesAcked := u64_add (totalMessagesAcked g) 1;
         readLatencies := readLatencies g;
         ackLatencies :=
           hdr_record (ackLatencies g)
             (Microseconds (Sub (t_end e) (t_start e))) |}
      {| ids := rest; done := done w; entries := entries w |}.

(** A step that leaves the process alive, by cases. *)
Inductive live_step (s : system) : list (nat * event) -> system -> Prop :=
| live_spawn c :
    live_step s []
      {| shared := shared s; stopChan_closed := stopChan_closed s;
         wg := wg s + 1; routines := routines s ++ [(c, Starting)] |}
| live_boot i c :
    routines s !! i = Some (c, Starting) ->
    live_step s [] (set_routine s i c (Running init_worker) (shared s) (wg s))
| live_next i c w e ev g w' :
    routines s !! i = Some (c, Running w) ->
    iter_next c e (shared s) w ev g w' ->
    live_step s [(i, ev)] (set_routine s i c (Running w') g (wg s))
| live_return i c w :
    routines s !! i = Some (c, Running w) ->
    live_step s [] (set_routine s i c Exited (shared s) (wg s - 1))
| live_close :
    live_step s []
      {| shared := shared s; stopChan_closed := true; wg := wg s;
         routines := routines s |}
| live_wait :
    wg s = 0 -> live_step s [] s.


(** Per goroutine: what it acknowledged is a prefix of what it fetched, and
    while it runs the rest is its window. *)
Definition fifo_at (i : nat) (log : list (nat * event))
    (r : option (consumer * goroutine)) : Prop :=
  match r with
  | Some (_, Running w) => fetched_by i log = acked_by i log ++ ids w
  | Some (_, Exited) => acked_by i log `prefix_of` fetched_by i log
  | Some (_, Starting) | None => fetched_by i log = [] /\ acked_by i log = []
  end.

Record invariant (log : list (nat * event)) (s : system) : Prop := {
  inv_read : totalMessagesRead (shared s) = fetches log mod u64_modulus;
  inv_acked : totalMessagesAcked (shared s) = acks log mod u64_modulus;
  inv_count : acks log + pending (routines s) <= fetches log;
  inv_fifo : forall i, fifo_at i log (routines s !! i);
  inv_window : forall i c w,
      routines s !! i = Some (c, Running w) ->
      Z.of_nat (length (ids w)) <= Z.max 0 (pcount c);
  inv_wg : wg s = active (routines s)
}.

Ltac branch_cases :=
  let H := fresh "H" in
  let Hp := fresh "Hp" in
  split; intro H;
  try discriminate;
  try (destruct H as (? & ? & Hp); try discriminate;
       try congruence; try (destruct Hp; try discriminate; lia); try lia);
  try (repeat split; auto; try congruence; try lia; fail).

(** ** Vocabulary of the further properties *)

(** The consumers [main] starts, in the order of its [go] statements. *)
Definition started (tr : list action) : list consumer :=
  flat_map (fun a => match a with AGo _ c => [c] | _ => [] end) tr.

(** The identifier a reply delivers: that of the first entry of its first
    batch, as read at line 53. *)
Definition delivered (reply : list StreamEntries) : option StreamEntryID :=
  match reply with
  | batch :: _ =>
      match Entries batch with
      | x :: _ => Some (ID x)
      | [] => None
      end
  | [] => None
  end.





(** Empty replies in the log: all of them, and those of one consumer. *)
Definition is_exhausted (p : nat * event) : bool :=
  match p with (_, EvExhausted) => true | _ => false end.

Definition exhausts (log : list (nat * event)) : Z :=
  Z.of_nat (length (List.filter is_exhausted log)).

Definition exhausted_by (i : nat) (log : list (nat * event)) : nat :=
  length (List.filter (fun p => is_exhausted p && Nat.eqb i (fst p)) log).

(** How the mark [done] of a goroutine relates to its empty replies. *)
Definition marked_at (i : nat) (log : list (nat * event))
    (r : option (consumer * goroutine)) : Prop :=
  match r with
  | Some (_, Running w) => exhausted_by i log = if done w then 1%nat else 0%nat
  | Some (_, Exited) => (exhausted_by i log <= 1)%nat
  | Some (_, Starting) | None => exhausted_by i log = 0%nat
  end.

Record accounting (log : list (nat * event)) (s : system) : Prop := {
  acc_read :
    Z.of_nat (length (recorded (readLatencies (shared s))))
    = fetches log + exhausts log;
  acc_ack :
    Z.of_nat (length (recorded (ackLatencies (shared s)))) = acks log;
  acc_marked : forall i, marked_at i log (routines s !! i);
  acc_idle : forall i c r,
      routines s !! i = Some (c, r) -> pcount c <= 0 ->
      fetched_by i log = [] /\ exhausted_by i log = 0%nat
}.

(** One consumer with a window of two that fetches one entry and then
    receives an empty reply. *)
Definition exhausted_schedule : list label :=
  [LSpawn (sample_consumer 2); LBoot 0 boot_ok;
   LIter 0 (io_ok (sample_reply 0)); LIter 0 (io_ok [])].

Definition exhausted_log : list (nat * event) :=
  match run exhausted_schedule init_system with
  | Some (log, _) => log
  | None => []
  end.

Definition exhausted_state : system :=
  match run exhausted_schedule init_system with
  | Some (_, s) => s
  | None => init_system
  end.


(** Both directions of an equivalence between an outcome and its causes,
    once the outcome is known. *)
Ltac outcome_cases :=
  let H := fresh "H" in
  split; intro H;
  repeat match goal with
         | H : _ /\ _ |- _ => destruct H
         | H : _ \/ _ |- _ => destruct H
         | H : exists _, _ |- _ => destruct H
         | H : Fatal _ = Fatal _ |- _ => injection H as H
         | H : Some _ = Some _ |- _ => injection H as H
         end;
  subst; try discriminate; try congruence;
  repeat split; eauto; discriminate.


(** A tick at which the reporter goes on: the acknowledged count differs
    from the target. *)
Definition goes_on (count : Z) (ev : select_case) : Prop :=
  is_tick ev = true /\ totalMessagesAcked (seen ev) <> count.

(** Six ticks of a run with target 5 in which the acknowledged count jumps
    from 4 to 7 between two ticks. *)
Definition overshoot_ticks : list select_case :=
  [CaseTick (counters 0 0) 1000 1001 1002;
   CaseTick (counters 4 4) 2000 2001 2002;
   CaseTick (counters 7 7) 3000 3001 3002;
   CaseTick (counters 9 9) 4000 4001 4002;
   CaseTick (counters 10 10) 5000 5001 5002;
   CaseTick (counters 10 10) 6000 6001 6002].








(** * Properties *)

(** ** Arithmetic of the counters *)

Lemma u64_add_mod (n : Z) :
  u64_add (n mod u64_modulus) 1 = (n + 1) mod u64_modulus.
Proof.
  unfold u64_add. rewrite Zplus_mod_idemp_l. reflexivity.
Qed.

(** ** One iteration of a consumer *)

Lemma select_branch_fetch c stop w :
  select_branch c stop w = BrFetch <->
  stop = false /\ Z.of_nat (length (ids w)) < pcount c /\ done w = false.
Proof.
  unfold select_branch.
  destruct stop; [branch_cases |].
  destruct (Z.ltb_spec (Z.of_nat (length (ids w))) (pcount c));
    destruct (done w); simpl;
    try destruct (Z.of_nat (length (ids w)) >? 0); branch_cases.
Qed.

Lemma select_branch_ack c stop w :
  select_branch c stop w = BrAck <->
  stop = false /\ ids w <> [] /\
  (pcount c <= Z.of_nat (length (ids w)) \/ done w = true).
Proof.
  unfold select_branch.
  destruct stop; [branch_cases |].
  destruct (ids w) as [| id rest] eqn:Hids; simpl length;
    match goal with
    | |- context [Z.ltb ?a ?b] => destruct (Z.ltb_spec a b)
    end; destruct (done w); simpl; branch_cases.
Qed.

Lemma select_branch_return c stop w :
  select_branch c stop w = BrReturn <->
  stop = false /\ ids w = [] /\ (pcount c <= 0 \/ done w = true).
Proof.
  unfold select_branch.
  destruct stop; [branch_cases |].
  destruct (ids w) as [| id rest] eqn:Hids; simpl length;
    match goal with
    | |- context [Z.ltb ?a ?b] => destruct (Z.ltb_spec a b)
    end; destruct (done w); simpl; branch_cases.
Qed.

Lemma iteration_next c stop e g w ev g' w' :
  iteration c stop e g w = Next ev g' w' -> iter_next c e g w ev g' w'.
Proof.
  unfold iteration.
  destruct (select_branch c stop w) eqn:Hb; try discriminate.
  - apply select_branch_fetch in Hb as (_ & Hlt & Hd).
    unfold fetch.
    destruct (cmd_err e); [discriminate |].
    destruct (rec_err e); [discriminate |].
    destruct (cmd_reply e) as [| batch bs] eqn:Hr; simpl.
    + intros [= <- <- <-]. rewrite <- Hr. apply next_exhausted; auto.
    + destruct (Entries batch) as [| x xs] eqn:Hx; simpl; [discriminate |].
      intros [= <- <- <-]. rewrite <- Hr.
      apply next_fetch with (batch := batch); auto.
      * rewrite Hr. reflexivity.
      * rewrite Hx. reflexivity.
  - unfold ack.
    destruct (ids w) as [| id rest] eqn:Hids; simpl; [discriminate |].
    destruct (cmd_err e); [discriminate |].
    destruct (rec_err e); [discriminate |].
    intros [= <- <- <-]. rewrite drop_0. apply next_ack. assumption.
Qed.

(** ** Sums over the goroutines and projections of the log *)

Lemma total_app f rs rs' : total f (rs ++ rs') = total f rs + total f rs'.
Proof.
  induction rs as [| r rs IH]; simpl; [reflexivity | rewrite IH; lia].
Qed.

Lemma total_insert f (rs : list (consumer * goroutine)) i x y :
  rs !! i = Some x ->
  total f (<[i := y]> rs) = total f rs - f x + f y.
Proof.
  revert i. induction rs as [| r rs IH]; intros [| i] Hi; simpl in *;
    try discriminate.
  - injection Hi as ->. lia.
  - rewrite (IH i Hi). lia.
Qed.

Lemma fetched_by_app i log evs :
  fetched_by i (log ++ evs) = fetched_by i log ++ fetched_by i evs.
Proof. apply flat_map_app. Qed.

Lemma acked_by_app i log evs :
  acked_by i (log ++ evs) = acked_by i log ++ acked_by i evs.
Proof. apply flat_map_app. Qed.

Lemma fetches_app log evs : fetches (log ++ evs) = fetches log + fetches evs.
Proof. unfold fetches. rewrite filter_app, length_app. lia. Qed.

Lemma acks_app log evs : acks (log ++ evs) = acks log + acks evs.
Proof. unfold acks. rewrite filter_app, length_app. lia. Qed.

Lemma fetches_nonneg log : 0 <= fetches log.
Proof. unfold fetches. lia. Qed.

Lemma acks_nonneg log : 0 <= acks log.
Proof. unfold acks. lia. Qed.

Lemma pending_nonneg rs : 0 <= pending rs.
Proof.
  unfold pending. induction rs as [| r rs IH]; simpl; lia.
Qed.

(** ** Steps of the process *)

Lemma step_live l s evs s' :
  step l s = Some (evs, Live s') -> live_step s evs s'.
Proof.
  destruct l as [c | i b | i e | |]; simpl.
  - intros [= <- <-]. constructor.
  - destruct (routines s !! i) as [[c [| w |]] |] eqn:Hi; try discriminate.
    destruct (bootstrapGroupConsumer b); [discriminate |].
    intros [= <- <-]. constructor. assumption.
  - destruct (routines s !! i) as [[c [| w |]] |] eqn:Hi; try discriminate.
    destruct (iteration c (stopChan_closed s) e (shared s) w) eqn:Hit;
      try discriminate; intros [= <- <-].
    + apply iteration_next in Hit. econstructor; eassumption.
    + econstructor; eassumption.
  - destruct (stopChan_closed s); [discriminate |].
    intros [= <- <-]. constructor.
  - destruct (Z.eqb_spec (wg s) 0); [| discriminate].
    intros [= <- <-]. constructor. assumption.
Qed.

Lemma fifo_at_insert_ne i j log (rs : list (consumer * goroutine)) x :
  i <> j ->
  fifo_at j log (rs !! j) ->
  fifo_at j log (<[i := x]> rs !! j).
Proof.
  intros Hne H. rewrite list_lookup_insert_ne; assumption.
Qed.

Lemma fetched_by_other i j ev :
  i <> j -> fetched_by j [(i, ev)] = [].
Proof.
  intros Hne. unfold fetched_by. simpl.
  destruct ev; try reflexivity.
  destruct (Nat.eqb_spec j i); [congruence | reflexivity].
Qed.

Lemma acked_by_other i j ev :
  i <> j -> acked_by j [(i, ev)] = [].
Proof.
  intros Hne. unfold acked_by. simpl.
  destruct ev; try reflexivity.
  destruct (Nat.eqb_spec j i); [congruence | reflexivity].
Qed.

Lemma fifo_at_other i j ev log r :
  i <> j -> fifo_at j log r -> fifo_at j (log ++ [(i, ev)]) r.
Proof.
  intros Hne. unfold fifo_at.
  rewrite fetched_by_app, acked_by_app.
  rewrite (fetched_by_other i j ev Hne), (acked_by_other i j ev Hne).
  rewrite !app_nil_r. tauto.
Qed.

Lemma invariant_init : invariant [] init_system.
Proof.
  split; simpl; try reflexivity.
  - intros i. auto.
  - intros i c w. rewrite lookup_nil. discriminate.
Qed.

Lemma invariant_spawn log s c :
  invariant log s ->
  invariant log
    {| shared := shared s; stopChan_closed := stopChan_closed s;
       wg := wg s + 1; routines := routines s ++ [(c, Starting)] |}.
Proof.
  intros [Hr Ha Hc Hf Hw Hg]. split; simpl; auto.
  - unfold pending in *. rewrite total_app. simpl. lia.
  - intros i. specialize (Hf i).
    destruct (routines s !! i) as [x |] eqn:Hi.
    + rewrite (lookup_app_l_Some _ _ _ _ Hi). assumption.
    + apply lookup_ge_None in Hi.
      destruct ((routines s ++ [(c, Starting)]) !! i) as [y |] eqn:Hy;
        [| assumption].
      apply lookup_app_Some in Hy as [Hy | [_ Hy]].
      * apply lookup_lt_Some in Hy. lia.
      * destruct (i - length (routines s))%nat; simpl in Hy;
          [injection Hy as <-; assumption |].
        rewrite lookup_nil in Hy. discriminate.
  - intros i c' w Hi. apply lookup_app_Some in Hi as [Hi | [_ Hi]].
    + eapply Hw; eassumption.
    + destruct (i - length (routines s))%nat; simpl in Hi;
        [discriminate | rewrite lookup_nil in Hi; discriminate].
  - unfold active in *. rewrite total_app. simpl. lia.
Qed.

Lemma invariant_boot log s i c :
  invariant log s ->
  routines s !! i = Some (c, Starting) ->
  invariant log (set_routine s i c (Running init_worker) (shared s) (wg s)).
Proof.
  intros [Hr Ha Hc Hf Hw Hg] Hi. split; simpl; auto.
  - unfold pending in *. rewrite (total_insert _ _ _ _ _ Hi). simpl. lia.
  - intros j. destruct (Nat.eq_dec i j) as [<- | Hne].
    + rewrite list_lookup_insert_eq by (eapply lookup_lt_Some; eassumption).
      specialize (Hf i). rewrite Hi in Hf. simpl in *.
      destruct Hf as [-> ->]. reflexivity.
    + apply fifo_at_insert_ne; auto.
  - intros j c' w Hj.
    apply list_lookup_insert_Some in Hj as [(<- & [= <- <-] & _) | (_ & Hj)].
    + simpl. lia.
    + eapply Hw; eassumption.
  - unfold active in *. rewrite (total_insert _ _ _ _ _ Hi). simpl. lia.
Qed.

Lemma invariant_return log s i c w :
  invariant log s ->
  routines s !! i = Some (c, Running w) ->
  invariant log (set_routine s i c Exited (shared s) (wg s - 1)).
Proof.
  intros [Hr Ha Hc Hf Hw Hg] Hi. split; simpl; auto.
  - unfold pending in *. rewrite (total_insert _ _ _ _ _ Hi). simpl. lia.
  - intros j. destruct (Nat.eq_dec i j) as [<- | Hne].
    + rewrite list_lookup_insert_eq by (eapply lookup_lt_Some; eassumption).
      specialize (Hf i). rewrite Hi in Hf. simpl in *.
      rewrite Hf. apply prefix_app_r. reflexivity.
    + apply fifo_at_insert_ne; auto.
  - intros j c' w' Hj.
    apply list_lookup_insert_Some in Hj as [(_ & [=] & _) | (_ & Hj)].
    eapply Hw; eassumption.
  - unfold active in *. rewrite (total_insert _ _ _ _ _ Hi). simpl. lia.
Qed.

Lemma fetched_by_self i ev :
  fetched_by i [(i, ev)] = match ev with EvFetch id => [id] | _ => [] end.
Proof.
  unfold fetched_by. simpl. destruct ev; try reflexivity.
  rewrite Nat.eqb_refl. reflexivity.
Qed.

Lemma acked_by_self i ev :
  acked_by i [(i, ev)] = match ev with EvAck id => [id] | _ => [] end.
Proof.
  unfold acked_by. simpl. destruct ev; try reflexivity.
  rewrite Nat.eqb_refl. reflexivity.
Qed.

Lemma fetches_single i ev :
  fetches [(i, ev)] = match ev with EvFetch _ => 1 | _ => 0 end.
Proof. destruct ev; reflexivity. Qed.

Lemma acks_single i ev :
  acks [(i, ev)] = match ev with EvAck _ => 1 | _ => 0 end.
Proof. destruct ev; reflexivity. Qed.

Lemma invariant_next log s i c w e ev g w' :
  invariant log s ->
  routines s !! i = Some (c, Running w) ->
  iter_next c e (shared s) w ev g w' ->
  invariant (log ++ [(i, ev)]) (set_routine s i c (Running w') g (wg s)).
Proof.
  intros [Hr Ha Hc Hf Hw Hg] Hi Hnext.
  assert (Hlen : (i < length (routines s))%nat)
    by (eapply lookup_lt_Some; eassumption).
  pose proof (Hf i) as Hfi. rewrite Hi in Hfi. simpl in Hfi.
  pose proof (Hw i c w Hi) as Hwi.
  split; simpl.
  - rewrite fetches_app, fetches_single.
    destruct Hnext; simpl; rewrite Hr;
      [apply u64_add_mod | f_equal; lia | f_equal; lia].
  - rewrite acks_app, acks_single.
    destruct Hnext; simpl; rewrite Ha;
      [f_equal; lia | f_equal; lia | apply u64_add_mod].
  - rewrite fetches_app, acks_app, fetches_single, acks_single.
    unfold pending in *. rewrite (total_insert _ _ _ _ _ Hi). simpl.
    destruct Hnext as [batch x Hlt Hd Hb Hx | Hlt Hd He | id rest Hids]; simpl.
    + rewrite length_app. simpl. lia.
    + lia.
    + rewrite Hids. simpl. lia.
  - intros j. destruct (Nat.eq_dec i j) as [<- | Hne].
    + rewrite list_lookup_insert_eq by assumption. simpl.
      rewrite fetched_by_app, acked_by_app, fetched_by_self, acked_by_self.
      destruct Hnext as [batch x Hlt Hd Hb Hx | Hlt Hd He | id rest Hids]; simpl.
      * rewrite Hfi, app_nil_r, app_assoc. reflexivity.
      * rewrite Hfi, !app_nil_r. reflexivity.
      * rewrite Hfi, Hids, app_nil_r, <- app_assoc. reflexivity.
    + apply fifo_at_insert_ne; auto. apply fifo_at_other; auto.
  - intros j c' w'' Hj.
    apply list_lookup_insert_Some in Hj as [(<- & [= <- <-] & _) | (_ & Hj)].
    + destruct Hnext as [batch x Hlt Hd Hb Hx | Hlt Hd He | id rest Hids]; simpl.
      * rewrite length_app. simpl. lia.
      * assumption.
      * rewrite Hids in Hwi. simpl in Hwi. lia.
    + eapply Hw; eassumption.
  - unfold active in *. rewrite (total_insert _ _ _ _ _ Hi). simpl. lia.
Qed.

Lemma invariant_step log s evs s' :
  invariant log s -> live_step s evs s' -> invariant (log ++ evs) s'.
Proof.
  intros Hinv Hstep.
  destruct Hstep; rewrite ?app_nil_r.
  - apply invariant_spawn; assumption.
  - apply invariant_boot; assumption.
  - eapply invariant_next; eassumption.
  - eapply invariant_return; eassumption.
  - destruct Hinv. split; simpl; assumption.
  - assumption.
Qed.

Lemma reachable_invariant log s : reachable log s -> invariant log s.
Proof.
  induction 1 as [| l s log evs s' _ IH Hstep].
  - apply invariant_init.
  - eapply invariant_step; [eassumption |].
    eapply step_live; eassumption.
Qed.

Lemma run_reachable ls : forall log s evs s',
  reachable log s -> run ls s = Some (evs, s') -> reachable (log ++ evs) s'.
Proof.
  induction ls as [| l ls IH]; intros log s evs s' Hreach; simpl.
  - intros [= <- <-]. rewrite app_nil_r. assumption.
  - destruct (step l s) as [[evs1 [s1 | |]] |] eqn:Hstep; try discriminate.
    destruct (run ls s1) as [[evs2 s2] |] eqn:Hrun; try discriminate.
    intros [= <- <-]. rewrite app_assoc.
    eapply IH; [| eassumption].
    eapply reach_step; eassumption.
Qed.


Lemma live_step_events s evs s' :
  live_step s evs s' -> evs = [] \/ exists p, evs = [p].
Proof. destruct 1; eauto. Qed.

(** Every nonempty prefix of a log is the log of an earlier state. *)
Lemma reachable_prefix log s :
  reachable log s ->
  forall pre p post, log = pre ++ p :: post ->
  exists s0, reachable (pre ++ [p]) s0.
Proof.
  induction 1 as [| l s log evs s' Hreach IH Hstep]; intros pre p post Heq.
  - destruct pre; discriminate.
  - pose proof (step_live _ _ _ _ Hstep) as Hlive.
    destruct (live_step_events _ _ _ Hlive) as [-> | [q ->]].
    + rewrite app_nil_r in Heq. eauto.
    + destruct post as [| x post _] using rev_ind.
      * apply app_inj_tail in Heq as [-> ->].
        exists s'. eapply reach_step; eassumption.
      * change (pre ++ p :: post ++ [x]) with (pre ++ (p :: post) ++ [x]) in Heq.
        rewrite app_assoc in Heq.
        apply app_inj_tail in Heq as [-> _]. eauto.
Qed.

Lemma fifo_at_prefix i log r :
  fifo_at i log r -> acked_by i log `prefix_of` fetched_by i log.
Proof.
  destruct r as [[c [| w |]] |]; simpl.
  - intros [-> ->]. reflexivity.
  - intros ->. apply prefix_app_r. reflexivity.
  - auto.
  - intros [-> ->]. reflexivity.
Qed.

Lemma acked_was_fetched log s pre i id post :
  reachable log s ->
  log = pre ++ (i, EvAck id) :: post ->
  In id (fetched_by i pre).
Proof.
  intros Hreach Heq.
  destruct (reachable_prefix _ _ Hreach _ _ _ Heq) as [s0 Hs0].
  apply reachable_invariant in Hs0.
  pose proof (fifo_at_prefix _ _ _ (inv_fifo _ _ Hs0 i)) as [rest Hrest].
  rewrite fetched_by_app, acked_by_app, fetched_by_self, acked_by_self in Hrest.
  simpl in Hrest. rewrite app_nil_r in Hrest. rewrite Hrest.
  apply in_or_app. left. apply in_or_app. right. left. reflexivity.
Qed.

(** C3.  While fewer than 2^64 messages have been fetched (the counters are
    [uint64]), in every reachable state [totalMessagesRead] is the number of
    messages fetched and [totalMessagesAcked] the number acknowledged, the
    second never exceeds the first, no step of any goroutine decreases
    either, each grows by exactly the number of fetch (acknowledge) events
    of the step, and every acknowledged identifier was fetched earlier by
    the same consumer. *)
Theorem counters_monotone_and_ordered log s :
  reachable log s ->
  fetches log < u64_modulus ->
  totalMessagesRead (shared s) = fetches log /\
  totalMessagesAcked (shared s) = acks log /\
  totalMessagesAcked (shared s) <= totalMessagesRead (shared s) /\
  (forall l evs s',
      step l s = Some (evs, Live s') ->
      fetches (log ++ evs) < u64_modulus ->
      totalMessagesRead (shared s') = totalMessagesRead (shared s) + fetches evs /\
      totalMessagesAcked (shared s') = totalMessagesAcked (shared s) + acks evs /\
      totalMessagesRead (shared s) <= totalMessagesRead (shared s') /\
      totalMessagesAcked (shared s) <= totalMessagesAcked (shared s')) /\
  (forall pre i id post,
      log = pre ++ (i, EvAck id) :: post -> In id (fetched_by i pre)).
Proof.
  intros Hreach Hbound.
  assert (Hcount : forall log0 s0,
             reachable log0 s0 -> fetches log0 < u64_modulus ->
             totalMessagesRead (shared s0) = fetches log0 /\
             totalMessagesAcked (shared s0) = acks log0 /\
             acks log0 <= fetches log0).
  { intros log0 s0 H0 Hb. apply reachable_invariant in H0.
    destruct H0 as [Hr Ha Hc _ _ _].
    pose proof (fetches_nonneg log0). pose proof (acks_nonneg log0).
    pose proof (pending_nonneg (routines s0)).
    rewrite Hr, Ha, !Z.mod_small by lia. lia. }
  destruct (Hcount log s Hreach Hbound) as (Hr & Ha & Hle).
  refine (conj Hr (conj Ha (conj _ (conj _ _)))).
  - lia.
  - intros l evs s' Hstep Hb'.
    destruct (Hcount _ _ (reach_step _ _ _ _ _ Hreach Hstep) Hb') as (Hr' & Ha' & _).
    rewrite fetches_app in Hr'. rewrite acks_app in Ha'.
    pose proof (fetches_nonneg evs). pose proof (acks_nonneg evs).
    lia.
  - intros pre i id post Heq. eapply acked_was_fetched; eassumption.
Qed.

Lemma counters_monotone_and_ordered_witness :
  reachable sample_log sample_state /\
  fetches sample_log < u64_modulus /\
  totalMessagesRead (shared sample_state) = 2 /\
  totalMessagesAcked (shared sample_state) = 1 /\
  totalMessagesAcked (shared sample_state)
    <= totalMessagesRead (shared sample_state).
Proof.
  assert (Hreach : reachable sample_log sample_state)
    by (apply (run_reachable sample_schedule [] init_system);
        [apply reach_init | reflexivity]).
  assert (Hb : fetches sample_log < u64_modulus) by reflexivity.
  destruct (counters_monotone_and_ordered _ _ Hreach Hb) as (Hr & Ha & Hle & _).
  repeat split; assumption.
Defined.

(** C4, as stated: the window of every running consumer is at most
    [pcount].  It fails at the first iteration of a consumer started with
    [-group-consumer-max-pending=-1]: its empty window has length 0 > -1. *)
Lemma window_bound_counterexample :
  reachable [] negative_state /\
  routines negative_state !! 0%nat
    = Some (sample_consumer (-1), Running init_worker) /\
  ~ Z.of_nat (length (ids init_worker)) <= pcount (sample_consumer (-1)).
Proof.
  split; [| split].
  - apply (run_reachable negative_schedule [] init_system);
      [apply reach_init | reflexivity].
  - reflexivity.
  - simpl. lia.
Qed.

(** C4, amended.  In every reachable state the window of a running consumer
    has at most [max 0 pcount] identifiers, hence at most [pcount] when
    [pcount] is not negative; and the fetch branch, the only one that
    appends, is taken only when the window is strictly shorter than
    [pcount]. *)
Theorem window_bound log s i c w :
  reachable log s ->
  routines s !! i = Some (c, Running w) ->
  Z.of_nat (length (ids w)) <= Z.max 0 (pcount c) /\
  (0 <= pcount c -> Z.of_nat (length (ids w)) <= pcount c) /\
  (select_branch c (stopChan_closed s) w = BrFetch ->
   Z.of_nat (length (ids w)) < pcount c) /\
  (forall e ev g w',
      iteration c (stopChan_closed s) e (shared s) w = Next ev g w' ->
      Z.of_nat (length (ids w')) <= Z.max 0 (pcount c)).
Proof.
  intros Hreach Hi.
  pose proof (inv_window _ _ (reachable_invariant _ _ Hreach) i c w Hi) as Hw.
  refine (conj Hw (conj _ (conj _ _))).
  - lia.
  - intros Hb. apply select_branch_fetch in Hb. tauto.
  - intros e ev g w' Hit. apply iteration_next in Hit.
    destruct Hit as [batch x Hlt Hd Hb Hx | Hlt Hd He | id rest Hids]; simpl.
    + rewrite length_app. simpl. lia.
    + assumption.
    + rewrite Hids in Hw. simpl in Hw. lia.
Qed.

Lemma window_bound_witness :
  reachable sample_log sample_state /\
  routines sample_state !! 0%nat
    = Some (sample_consumer 2,
            Running {| ids := [sample_id 1]; done := false;
                       entries := sample_reply 1 |}) /\
  Z.of_nat (length [sample_id 1]) <= Z.max 0 2.
Proof.
  assert (Hreach : reachable sample_log sample_state)
    by (apply (run_reachable sample_schedule [] init_system);
        [apply reach_init | reflexivity]).
  assert (Hi : routines sample_state !! 0%nat
               = Some (sample_consumer 2,
                       Running {| ids := [sample_id 1]; done := false;
                                  entries := sample_reply 1 |}))
    by reflexivity.
  split; [exact Hreach | split; [exact Hi |]].
  exact (proj1 (window_bound _ _ _ _ _ Hreach Hi)).
Defined.

(** C5.  For every consumer, what it has acknowledged is a prefix of what it
    has fetched, in the same order; while it runs, the remainder is exactly
    its window: a fetch appends to the tail of the window and an
    acknowledge removes its head. *)
Theorem ack_order_is_fetch_order log s i :
  reachable log s ->
  acked_by i log `prefix_of` fetched_by i log /\
  (forall c w,
      routines s !! i = Some (c, Running w) ->
      fetched_by i log = acked_by i log ++ ids w /\
      forall e ev g w',
        iteration c (stopChan_closed s) e (shared s) w = Next ev g w' ->
        match ev with
        | EvFetch id => ids w' = ids w ++ [id]
        | EvAck id => ids w = id :: ids w'
        | EvExhausted => ids w' = ids w
        end).
Proof.
  intros Hreach.
  pose proof (inv_fifo _ _ (reachable_invariant _ _ Hreach) i) as Hf.
  split; [eapply fifo_at_prefix; eassumption |].
  intros c w Hi. rewrite Hi in Hf. simpl in Hf.
  split; [assumption |].
  intros e ev g w' Hit. apply iteration_next in Hit.
  destruct Hit; simpl; auto.
Qed.

Lemma ack_order_is_fetch_order_witness :
  reachable sample_log sample_state /\
  fetched_by 0 sample_log = [sample_id 0; sample_id 1] /\
  acked_by 0 sample_log = [sample_id 0] /\
  acked_by 0 sample_log `prefix_of` fetched_by 0 sample_log.
Proof.
  assert (Hreach : reachable sample_log sample_state)
    by (apply (run_reachable sample_schedule [] init_system);
        [apply reach_init | reflexivity]).
  split; [exact Hreach | split; [reflexivity | split; [reflexivity |]]].
  exact (proj1 (ack_order_is_fetch_order _ _ 0%nat Hreach)).
Defined.

(** ** Branches of an iteration *)

Lemma fetch_not_return e g w : fetch e g w <> Return_.
Proof.
  unfold fetch.
  destruct (cmd_err e); [discriminate |].
  destruct (rec_err e); [discriminate |].
  destruct (Z.of_nat (length (cmd_reply e)) =? 0); [discriminate |].
  destruct (cmd_reply e !! 0%nat) as [batch |]; [| discriminate].
  destruct (Entries batch !! 0%nat); discriminate.
Qed.

Lemma ack_not_return e g w : ack e g w <> Return_.
Proof.
  unfold ack.
  destruct (ids w !! 0%nat); [| discriminate].
  destruct (cmd_err e); [discriminate |].
  destruct (rec_err e); discriminate.
Qed.

Lemma iteration_return c stop e g w :
  iteration c stop e g w = Return_ <->
  select_branch c stop w = BrStop \/ select_branch c stop w = BrReturn.
Proof.
  unfold iteration.
  destruct (select_branch c stop w); split; auto;
    try (intros [H | H]; discriminate).
  - intros H. destruct (fetch_not_return _ _ _ H).
  - intros H. destruct (ack_not_return _ _ _ H).
Qed.

Lemma select_branch_stop c stop w :
  select_branch c stop w = BrStop <-> stop = true.
Proof.
  unfold select_branch. destruct stop; [tauto |].
  split; [| discriminate].
  destruct ((Z.of_nat (length (ids w)) <? pcount c) && negb (done w));
    [discriminate |].
  destruct (Z.of_nat (length (ids w)) >? 0); discriminate.
Qed.

(** C6, as stated: the consumer returns if and only if no stop signal is
    seen, the window is empty and the source is marked exhausted.  With
    [-group-consumer-max-pending=0] a fresh consumer returns at its first
    iteration although the source was never marked exhausted; and a
    consumer that sees the stop channel closed returns with an identifier
    still in its window. *)
Lemma done_iff_exhausted_counterexample :
  ~ (iteration (sample_consumer 0) false (io_ok []) init_globals init_worker
       = Return_ <->
     false = false /\ ids init_worker = [] /\ done init_worker = true) /\
  ~ (iteration (sample_consumer 2) true (io_ok []) init_globals
       {| ids := [sample_id 0]; done := false; entries := sample_reply 0 |}
       = Return_ <->
     true = false /\ [sample_id 0] = [] /\ false = true).
Proof.
  split.
  - intros [Hif _].
    assert (H : iteration (sample_consumer 0) false (io_ok []) init_globals
                  init_worker = Return_) by reflexivity.
    destruct (Hif H) as (_ & _ & Hd). discriminate Hd.
  - intros [Hif _].
    assert (H : iteration (sample_consumer 2) true (io_ok []) init_globals
                  {| ids := [sample_id 0]; done := false;
                     entries := sample_reply 0 |} = Return_) by reflexivity.
    destruct (Hif H) as (Hs & _). discriminate Hs.
Qed.

(** C6, amended.  The consumer returns (and the deferred [wg.Done()] runs)
    exactly when, at the top of an iteration, the stop channel is closed,
    or the window is empty and either the source is marked exhausted or
    [pcount] is not positive.  So for a positive [pcount] and with no stop
    signal, it returns if and only if the window is empty and the source is
    marked exhausted.  The source becomes marked exactly in an iteration
    that takes the fetch branch and receives an empty reply; the mark is
    never cleared, and once it is set the fetch branch is never taken. *)
Theorem worker_return_and_exhaustion c stop e g w :
  (iteration c stop e g w = Return_ <->
   stop = true \/ (ids w = [] /\ (done w = true \/ pcount c <= 0))) /\
  (0 < pcount c -> stop = false ->
   (iteration c stop e g w = Return_ <-> ids w = [] /\ done w = true)) /\
  (forall ev g' w',
      iteration c stop e g w = Next ev g' w' ->
      (done w' = true <->
       done w = true \/
       (select_branch c stop w = BrFetch /\ cmd_reply e = []))) /\
  (done w = true ->
   select_branch c stop w <> BrFetch /\
   request c w (select_branch c stop w)
   <> Some (Cmd "XREADGROUP" (readCmdArgs c))).
Proof.
  assert (Hret : iteration c stop e g w = Return_ <->
                 stop = true \/ (ids w = [] /\ (done w = true \/ pcount c <= 0))).
  { rewrite iteration_return, select_branch_stop, select_branch_return.
    destruct stop; split; intros H; auto.
    - destruct H as [H | (_ & H1 & [H2 | H2])]; [discriminate | |]; auto.
    - destruct H as [H | (H1 & [H2 | H2])]; [discriminate | |]; auto. }
  refine (conj Hret (conj _ (conj _ _))).
  - intros Hpos ->. rewrite Hret. split.
    + intros [H | (H1 & [H2 | H2])]; [discriminate | auto | lia].
    + intros (H1 & H2). auto.
  - intros ev g' w' Hit.
    pose proof (iteration_next _ _ _ _ _ _ _ _ Hit) as Hn.
    destruct Hn as [batch x Hlt Hd Hb' Hx | Hlt Hd He | id rest Hids]; simpl.
    + split; [auto |]. intros [H | (_ & H)]; [assumption |].
      rewrite H in Hb'. discriminate Hb'.
    + split; [| reflexivity]. intros _. right. split; [| assumption].
      unfold iteration in Hit.
      destruct (select_branch c stop w) eqn:Hsel; try discriminate;
        [reflexivity |].
      unfold ack in Hit. rewrite Hd in *.
      destruct (ids w !! 0%nat); [| discriminate].
      destruct (cmd_err e); [discriminate |].
      destruct (rec_err e); discriminate.
    + split; [auto |]. intros [H | (Hsel & _)]; [assumption |].
      unfold iteration in Hit. rewrite Hsel in Hit. unfold fetch in Hit.
      destruct (cmd_err e); [discriminate |].
      destruct (rec_err e); [discriminate |].
      destruct (Z.of_nat (length (cmd_reply e)) =? 0); [discriminate |].
      destruct (cmd_reply e !! 0%nat) as [batch |]; [| discriminate].
      destruct (Entries batch !! 0%nat); discriminate.
  - intros Hd.
    assert (Hsel : select_branch c stop w <> BrFetch).
    { intros Hsel. apply select_branch_fetch in Hsel as (_ & _ & H).
      congruence. }
    split; [assumption |].
    destruct (select_branch c stop w); simpl; try discriminate;
      [congruence |].
    destruct (ids w !! 0%nat); discriminate.
Qed.

Lemma worker_return_and_exhaustion_witness :
  0 < pcount (sample_consumer 2) /\
  done {| ids := []; done := true; entries := [] |} = true /\
  iteration (sample_consumer 2) false (io_ok []) init_globals
    {| ids := []; done := true; entries := [] |} = Return_.
Proof.
  split; [reflexivity | split; [reflexivity |]].
  apply (proj1 (proj2 (worker_return_and_exhaustion
                         (sample_consumer 2) false (io_ok []) init_globals
                         {| ids := []; done := true; entries := [] |}))).
  - reflexivity.
  - reflexivity.
  - split; reflexivity.
Defined.

(** ** The histograms *)

Lemma domain_record h v : domain (hdr_record h v) = domain h.
Proof. reflexivity. Qed.






(** ** Indexing the reply *)

(** C10.  The fetch branch reads [entries[0].Entries[0]] after checking only
    that [entries] is not empty.  If the first batch of every nonempty reply
    has an entry, no iteration panics; if a call succeeds with a reply whose
    first batch has no entry, the fetch branch panics with an index out of
    range. *)
Theorem fetch_index_safety c stop e g w :
  (first_batch_nonempty (cmd_reply e) -> iteration c stop e g w <> Panic) /\
  (forall batch,
      select_branch c stop w = BrFetch ->
      cmd_err e = None -> rec_err e = None ->
      cmd_reply e !! 0%nat = Some batch -> Entries batch = [] ->
      iteration c stop e g w = Panic).
Proof.
  split.
  - intros Hwf. unfold iteration.
    destruct (select_branch c stop w) eqn:Hsel; try discriminate.
    + unfold fetch.
      destruct (cmd_err e); [discriminate |].
      destruct (rec_err e); [discriminate |].
      destruct (cmd_reply e) as [| batch bs] eqn:Hr; simpl; [discriminate |].
      destruct (Entries batch) as [| x xs] eqn:Hx; simpl; [| discriminate].
      exfalso. apply (Hwf batch); [reflexivity | assumption].
    + apply select_branch_ack in Hsel as (_ & Hne & _).
      unfold ack. destruct (ids w) as [| id rest]; [congruence |]. simpl.
      destruct (cmd_err e); [discriminate |].
      destruct (rec_err e); discriminate.
  - intros batch Hsel Hcmd Hrec Hb Hx.
    unfold iteration. rewrite Hsel. unfold fetch. rewrite Hcmd, Hrec.
    destruct (cmd_reply e) as [| b bs]; [discriminate Hb |].
    simpl in *. injection Hb as ->. rewrite Hx. reflexivity.
Qed.

Lemma fetch_index_safety_witness :
  first_batch_nonempty (cmd_reply (io_ok (sample_reply 0))) /\
  iteration (sample_consumer 1) false (io_ok (sample_reply 0)) init_globals
    init_worker <> Panic /\
  iteration (sample_consumer 1) false (io_ok empty_batch_reply) init_globals
    init_worker = Panic.
Proof.
  assert (Hwf : first_batch_nonempty (cmd_reply (io_ok (sample_reply 0)))).
  { intros batch [= <-]. discriminate. }
  split; [exact Hwf | split].
  - exact (proj1 (fetch_index_safety (sample_consumer 1) false
                    (io_ok (sample_reply 0)) init_globals init_worker) Hwf).
  - apply (proj2 (fetch_index_safety (sample_consumer 1) false
                    (io_ok empty_batch_reply) init_globals init_worker)
             {| Stream := "mystream"; Entries := [] |}); reflexivity.
Defined.

(** ** The reporter *)

Section Reporter.

(** The target handed to [updateCLI]. *)
Variable count : Z.









End Reporter.


(** ** The orchestrator *)

Lemma main_setup_cases f e :
  main_setup f e =
  match dial_err e with
  | Some msg => ([ADial (connectionStr f)], inl msg)
  | None =>
      match (if message_count f =? 0 then xlen_err e else None) with
      | Some msg => (ADial (connectionStr f) :: xlen_actions f, inl msg)
      | None =>
          match destroy_err e with
          | Some msg =>
              (ADial (connectionStr f) :: xlen_actions f ++ [destroy_cmd f],
               inl msg)
          | None =>
              (ADial (connectionStr f)
                 :: xlen_actions f ++ [destroy_cmd f; create_cmd f],
               match create_err e with
               | Some msg => inl msg
               | None => inr (target f e)
               end)
          end
      end
  end.
Proof.
  unfold main_setup, xlen_actions, target, xlen_cmd, destroy_cmd, create_cmd,
    bind, act, check, ret.
  destruct (dial_err e); [reflexivity |].
  destruct (message_count f =? 0); [destruct (xlen_err e); [reflexivity |] |];
    (destruct (destroy_err e); [reflexivity |]);
    destruct (create_err e); reflexivity.
Qed.

Lemma main_finish_cases f r e :
  main_finish f r e =
  if negb (String.eqb (json_out_file f) "") then
    match marshal_err e with
    | Some msg => (report_actions, inl msg)
    | None =>
        match write_err e with
        | Some msg => (report_actions ++ json_actions f, inl msg)
        | None =>
            (report_actions ++ json_actions f ++ shutdown_actions r, inr tt)
        end
    end
  else (report_actions ++ json_actions f ++ shutdown_actions r, inr tt).
Proof.
  unfold main_finish, json_actions, shutdown_actions, report_actions,
    bind, act, check, ret.
  destruct (negb (String.eqb (json_out_file f) ""));
    [destruct (marshal_err e); [reflexivity |];
     destruct (write_err e); [reflexivity |] |];
    destruct (closed r); reflexivity.
Qed.


Lemma main_cases f se r fe :
  main f se r fe =
  match main_setup f se with
  | (tr, inl msg) => (tr, inl msg)
  | (tr, inr count) =>
      (tr ++ fst (main_spawn f) ++ AUpdateCLI count :: fst (main_finish f r fe),
       snd (main_finish f r fe))
  end.
Proof.
  unfold main, bind at 1.
  destruct (main_setup f se) as [tr [msg | count]]; [reflexivity |].
  unfold bind, main_spawn, act.
  destruct (main_finish f r fe) as [tr' res]. reflexivity.
Qed.

Lemma xlen_actions_not_go f :
  Forall (fun a => is_go a = false) (xlen_actions f).
Proof.
  unfold xlen_actions. destruct (message_count f =? 0); repeat constructor.
Qed.

(** C1, as stated: an error of [XGROUP DESTROY] is ignored and the run goes
    on to [XGROUP CREATE].  With the default flags and a broker that
    answers the destroy command with an error, [main] stops with that error
    right after the destroy command: no create command is sent. *)
Lemma destroy_failure_counterexample :
  destroy_err setup_destroy_fails = Some "ERR no such key"%string /\
  main sample_flags setup_destroy_fails final_report finish_ok
  = ([ADial "127.0.0.1:6379"; xlen_cmd sample_flags; destroy_cmd sample_flags],
     inl "ERR no such key"%string) /\
  ~ In (create_cmd sample_flags)
      (fst (main sample_flags setup_destroy_fails final_report finish_ok)).
Proof.
  split; [reflexivity | split; [reflexivity |]].
  simpl. intros [H | [H | [H | []]]]; discriminate H.
Qed.

(** C1, amended.  During the reset of the consumer group an error of either
    command is fatal: if [XGROUP DESTROY] fails, [main] exits with that
    error right after it, without sending [XGROUP CREATE]; if it succeeds
    and [XGROUP CREATE] fails, [main] exits with that error right after it.
    In both cases no consumer has been started. *)
Theorem group_reset_failure_is_fatal f e r fe err :
  dial_err e = None ->
  (message_count f = 0 -> xlen_err e = None) ->
  (destroy_err e = Some err ->
   main f e r fe
   = (ADial (connectionStr f) :: xlen_actions f ++ [destroy_cmd f], inl err) /\
   Forall (fun a => is_go a = false) (fst (main f e r fe))) /\
  (destroy_err e = None -> create_err e = Some err ->
   main f e r fe
   = (ADial (connectionStr f) :: xlen_actions f ++ [destroy_cmd f; create_cmd f],
      inl err) /\
   Forall (fun a => is_go a = false) (fst (main f e r fe))).
Proof.
  intros Hdial Hxlen.
  assert (Hx : (if message_count f =? 0 then xlen_err e else None) = None).
  { destruct (Z.eqb_spec (message_count f) 0); auto. }
  split.
  - intros Hd.
    assert (Hmain : main f e r fe
                    = (ADial (connectionStr f) :: xlen_actions f ++ [destroy_cmd f],
                       inl err)).
    { rewrite main_cases, main_setup_cases, Hdial, Hx, Hd. reflexivity. }
    split; [exact Hmain |]. rewrite Hmain. simpl.
    constructor; [reflexivity |].
    apply Forall_app. split; [apply xlen_actions_not_go | repeat constructor].
  - intros Hd Hc.
    assert (Hmain : main f e r fe
                    = (ADial (connectionStr f)
                         :: xlen_actions f ++ [destroy_cmd f; create_cmd f],
                       inl err)).
    { rewrite main_cases, main_setup_cases, Hdial, Hx, Hd, Hc. reflexivity. }
    split; [exact Hmain |]. rewrite Hmain. simpl.
    constructor; [reflexivity |].
    apply Forall_app. split; [apply xlen_actions_not_go | repeat constructor].
Qed.

Lemma group_reset_failure_is_fatal_witness :
  dial_err setup_destroy_fails = None /\
  xlen_err setup_destroy_fails = None /\
  destroy_err setup_destroy_fails = Some "ERR no such key"%string /\
  Forall (fun a => is_go a = false)
    (fst (main sample_flags setup_destroy_fails final_report finish_ok)).
Proof.
  split; [reflexivity | split; [reflexivity | split; [reflexivity |]]].
  refine (proj2 (proj1 (group_reset_failure_is_fatal sample_flags
                          setup_destroy_fails final_report finish_ok
                          "ERR no such key" _ _) _)).
  - reflexivity.
  - intros _. reflexivity.
  - reflexivity.
Defined.



(** ** Shutdown *)

Lemma active_zero rs :
  active rs = 0 -> List.Forall (fun r => exited r = true) rs.
Proof.
  unfold active.
  assert (Hnn : forall l, 0 <= total (fun r => if exited r then 0 else 1) l).
  { induction l as [| x l IH]; simpl; [lia |]. destruct (exited x); lia. }
  induction rs as [| r rs IH]; simpl; [constructor |].
  intros H. pose proof (Hnn rs) as Hrs.
  destruct (exited r) eqn:Hr; [| lia].
  constructor; [assumption | apply IH; lia].
Qed.

Lemma updateCLI_closed count ev r res :
  updateCLI_step count ev r = inr res ->
  closed res = negb (is_tick ev).
Proof.
  destruct ev as [g now now_start now_end | g now_end]; simpl.
  - destruct (totalMessagesAcked g =? count); [| discriminate].
    intros [= <-]. reflexivity.
  - intros [= <-]. reflexivity.
Qed.

(** C7.  [updateCLI] returns [closed = true] exactly when it returns from
    the signal case.  What [main] does afterwards always starts with the
    final report; when it is not stopped by an error of the JSON output it
    is the report, the optional JSON file, and then nothing more if
    [closed], or else [close(stopChan)] followed by [wg.Wait()].  In every
    reachable state [wg.Wait()] can return only when every goroutine
    started has returned, and once the channel is closed every running
    consumer returns at its next iteration. *)
Theorem shutdown_depends_on_outcome f r e :
  (forall count ev rep,
      updateCLI_step count ev rep = inr r ->
      (closed r = true <-> is_tick ev = false)) /\
  (exists rest, fst (main_finish f r e) = report_actions ++ rest) /\
  (snd (main_finish f r e) = inr tt ->
   fst (main_finish f r e)
   = report_actions ++ json_actions f ++ shutdown_actions r) /\
  (closed r = true ->
   shutdown_actions r = [] /\
   List.Forall (fun a => is_shutdown a = false) (fst (main_finish f r e))) /\
  (closed r = false -> shutdown_actions r = [AClose; AWait]) /\
  (forall log s evs st,
      reachable log s ->
      step LWait s = Some (evs, st) ->
      st = Live s /\ List.Forall (fun x => exited x = true) (routines s)) /\
  (forall s i c w io,
      stopChan_closed s = true ->
      routines s !! i = Some (c, Running w) ->
      step (LIter i io) s
      = Some ([], Live (set_routine s i c Exited (shared s) (wg s - 1)))).
Proof.
  refine (conj _ (conj _ (conj _ (conj _ (conj _ (conj _ _)))))).
  - intros count ev rep Hres.
    rewrite (updateCLI_closed _ _ _ _ Hres). destruct (is_tick ev); simpl;
      split; auto; discriminate.
  - rewrite main_finish_cases.
    destruct (negb (String.eqb (json_out_file f) ""));
      [destruct (marshal_err e); [exists []; rewrite app_nil_r; reflexivity |];
       destruct (write_err e) |]; simpl; eauto.
  - rewrite main_finish_cases.
    destruct (negb (String.eqb (json_out_file f) ""));
      [destruct (marshal_err e); [discriminate |];
       destruct (write_err e); [discriminate |] |]; reflexivity.
  - intros Hc. unfold shutdown_actions. rewrite Hc. split; [reflexivity |].
    rewrite main_finish_cases. unfold json_actions, shutdown_actions.
    rewrite Hc.
    destruct (negb (String.eqb (json_out_file f) ""));
      [destruct (marshal_err e); [| destruct (write_err e)] |]; simpl;
      repeat constructor.
  - intros Hc. unfold shutdown_actions. rewrite Hc. reflexivity.
  - intros log s evs st Hreach. simpl.
    destruct (Z.eqb_spec (wg s) 0) as [Hz |]; [| discriminate].
    intros [= <- <-]. split; [reflexivity |].
    apply active_zero.
    rewrite <- (inv_wg _ _ (reachable_invariant _ _ Hreach)). assumption.
  - intros s i c w io Hstop Hi. simpl. rewrite Hi.
    unfold iteration, select_branch. rewrite Hstop. reflexivity.
Qed.

Lemma shutdown_depends_on_outcome_witness :
  closed final_report = false /\
  snd (main_finish sample_flags final_report finish_ok) = inr tt /\
  fst (main_finish sample_flags final_report finish_ok)
  = [APrintSummary; APrintLatencySummary "XREADGROUP";
     APrintLatencySummary "XACK"; AWriteFile "out.json"; AClose; AWait]%string.
Proof.
  split; [reflexivity | split; [reflexivity |]].
  refine (eq_trans (proj1 (proj2 (proj2 (shutdown_depends_on_outcome
                      sample_flags final_report finish_ok))) _) _);
    reflexivity.
Defined.

(** * Further properties *)

(** ** The names of the consumers *)

Lemma to_int_not_nil z :
  Z.to_int z <> Decimal.Pos Decimal.Nil /\ Z.to_int z <> Decimal.Neg Decimal.Nil.
Proof.
  destruct z as [| p | p]; simpl; split; try discriminate;
    intros [= H]; exact (Unsigned.to_uint_nonnil p H).
Qed.

Lemma format_int_inj a b : format_int a = format_int b -> a = b.
Proof.
  unfold format_int. intros H.
  destruct (to_int_not_nil a) as [Ha1 Ha2].
  destruct (to_int_not_nil b) as [Hb1 Hb2].
  pose proof (NilZero.isi _ Ha1 Ha2) as Ia.
  pose proof (NilZero.isi _ Hb1 Hb2) as Ib.
  rewrite H in Ia. rewrite Ia in Ib. injection Ib as Ib.
  apply to_int_inj. assumption.
Qed.

Lemma append_inj_r (p x y : string) : (p ++ x = p ++ y)%string -> x = y.
Proof.
  induction p as [| a p IH]; simpl; [auto |].
  intros [= H]. auto.
Qed.

Lemma NoDup_map_inj {A B} (f : A -> B) (l : list A) :
  (forall x y, f x = f y -> x = y) -> List.NoDup l -> List.NoDup (map f l).
Proof.
  intros Hinj. induction 1 as [| x l Hx Hl IH]; simpl; constructor; auto.
  intros Hin. apply in_map_iff in Hin as (y & Hy & Hin).
  apply Hinj in Hy. subst y. contradiction.
Qed.

Lemma started_app tr tr' : started (tr ++ tr') = started tr ++ started tr'.
Proof. apply flat_map_app. Qed.

Lemma started_go addr (cs : list consumer) : started (map (AGo addr) cs) = cs.
Proof.
  induction cs as [| c cs IH]; [reflexivity |].
  change (started (map (AGo addr) (c :: cs)))
    with (c :: started (map (AGo addr) cs)).
  rewrite IH. reflexivity.
Qed.

Lemma started_setup f se : started (fst (main_setup f se)) = [].
Proof.
  rewrite main_setup_cases. unfold xlen_actions, xlen_cmd, destroy_cmd, create_cmd.
  destruct (dial_err se); [reflexivity |].
  destruct (message_count f =? 0);
    [destruct (xlen_err se); [reflexivity |] |];
    destruct (destroy_err se); reflexivity.
Qed.

Lemma started_finish f r fe : started (fst (main_finish f r fe)) = [].
Proof.
  rewrite main_finish_cases. unfold json_actions, shutdown_actions.
  destruct (negb (String.eqb (json_out_file f) ""));
    [destruct (marshal_err fe); [reflexivity |];
     destruct (write_err fe); [reflexivity |] |];
    destruct (closed r); reflexivity.
Qed.

(** X1.  Whatever happens, the consumers [main] starts have pairwise
    distinct names.  When the setup succeeds they are, in order, the
    consumers [prefix1], [prefix2], ... up to [-group-consumers-count] (none
    when it is not positive), all with the group, the key and the window
    size of the flags; when the setup fails none is started. *)
Theorem started_consumers_distinct f se r fe :
  List.NoDup (map consumerName (started (fst (main f se r fe)))) /\
  (forall count,
      snd (main_setup f se) = inr count ->
      started (fst (main f se r fe))
      = map (consumer_of f) (seqZ 1 (group_consumers_count f)) /\
      length (started (fst (main f se r fe)))
      = Z.to_nat (group_consumers_count f)) /\
  (forall msg,
      snd (main_setup f se) = inl msg -> started (fst (main f se r fe)) = []) /\
  (forall c,
      In c (started (fst (main f se r fe))) ->
      groupName c = group_name f /\ keyName c = key_name f /\
      pcount c = group_consumer_max_pending f).
Proof.
  assert (Hcases :
            started (fst (main f se r fe)) = [] /\
            (exists msg, snd (main_setup f se) = inl msg) \/
            started (fst (main f se r fe))
            = map (consumer_of f) (seqZ 1 (group_consumers_count f)) /\
            (exists count, snd (main_setup f se) = inr count)).
  { rewrite main_cases. pose proof (started_setup f se) as Hs.
    destruct (main_setup f se) as [tr [msg | count]]; simpl in *.
    - left. split; [assumption | eauto].
    - right. split; [| eauto].
      rewrite started_app, Hs. simpl.
      change (AUpdateCLI count :: fst (main_finish f r fe))
        with ([AUpdateCLI count] ++ fst (main_finish f r fe)).
      rewrite !started_app, started_finish.
      unfold main_spawn. simpl.
      rewrite <- (map_map (consumer_of f) (AGo (connectionStr f))).
      rewrite started_go, app_nil_r. reflexivity. }
  refine (conj _ (conj _ (conj _ _))).
  - destruct Hcases as [[-> _] | [-> _]]; [constructor |].
    rewrite map_map.
    apply NoDup_map_inj; [| apply NoDup_ListNoDup, NoDup_seqZ].
    intros x y H. simpl in H. apply append_inj_r in H.
    apply format_int_inj. assumption.
  - intros count Hc.
    destruct Hcases as [[_ [msg Hm]] | [Hs _]]; [congruence |].
    split; [assumption |].
    rewrite Hs, length_map. apply length_seqZ.
  - intros msg Hm.
    destruct Hcases as [[Hs _] | [_ [count Hc]]]; [assumption | congruence].
  - intros c Hin.
    destruct Hcases as [[Hs _] | [Hs _]]; rewrite Hs in Hin;
      [destruct Hin |].
    apply in_map_iff in Hin as (n & <- & _). auto.
Qed.

Lemma started_consumers_distinct_witness :
  snd (main_setup sample_flags setup_ok) = inr 5 /\
  map consumerName
    (started (fst (main sample_flags setup_ok final_report finish_ok)))
  = ["consumer-1"; "consumer-2"]%string.
Proof.
  assert (H : snd (main_setup sample_flags setup_ok) = inr 5) by reflexivity.
  split; [exact H |].
  rewrite (proj1 (proj1 (proj2 (started_consumers_distinct sample_flags setup_ok
                                  final_report finish_ok)) 5 H)).
  reflexivity.
Defined.

(** ** A consumer on its own *)












(** ** Samples and empty replies *)

Lemma exhausts_app log evs : exhausts (log ++ evs) = exhausts log + exhausts evs.
Proof. unfold exhausts. rewrite List.filter_app, length_app. lia. Qed.

Lemma exhausted_by_app i log evs :
  exhausted_by i (log ++ evs) = (exhausted_by i log + exhausted_by i evs)%nat.
Proof. unfold exhausted_by. rewrite List.filter_app, length_app. reflexivity. Qed.

Lemma exhausted_by_single i j ev :
  exhausted_by j [(i, ev)]
  = match ev with
    | EvExhausted => if Nat.eqb j i then 1%nat else 0%nat
    | _ => 0%nat
    end.
Proof.
  unfold exhausted_by. simpl. destruct ev; simpl; try reflexivity.
  destruct (Nat.eqb j i); reflexivity.
Qed.

Lemma exhausts_single i ev :
  exhausts [(i, ev)] = match ev with EvExhausted => 1 | _ => 0 end.
Proof. destruct ev; reflexivity. Qed.

Lemma accounting_init : accounting [] init_system.
Proof.
  split; try reflexivity.
  intros i c r. simpl. rewrite lookup_nil. discriminate.
Qed.

Lemma marked_at_insert_ne i j log (rs : list (consumer * goroutine)) x :
  i <> j -> marked_at j log (rs !! j) -> marked_at j log (<[i := x]> rs !! j).
Proof. intros Hne H. rewrite list_lookup_insert_ne; assumption. Qed.

Lemma marked_at_other i j ev log r :
  i <> j -> marked_at j log r -> marked_at j (log ++ [(i, ev)]) r.
Proof.
  intros Hne. unfold marked_at.
  rewrite exhausted_by_app, exhausted_by_single.
  destruct (Nat.eqb_spec j i) as [-> | _]; [contradiction |].
  destruct ev; rewrite Nat.add_0_r; auto.
Qed.

Lemma accounting_spawn log s c :
  invariant log s -> accounting log s ->
  accounting log
    {| shared := shared s; stopChan_closed := stopChan_closed s;
       wg := wg s + 1; routines := routines s ++ [(c, Starting)] |}.
Proof.
  intros Hinv [Hr Ha Hm Hi]. split; simpl; auto.
  - intros i. specialize (Hm i).
    destruct (routines s !! i) as [x |] eqn:Hx.
    + rewrite (lookup_app_l_Some _ _ _ _ Hx). assumption.
    + destruct ((routines s ++ [(c, Starting)]) !! i) as [y |] eqn:Hy;
        [| assumption].
      apply lookup_ge_None in Hx.
      apply lookup_app_Some in Hy as [Hy | [_ Hy]].
      * apply lookup_lt_Some in Hy. lia.
      * destruct (i - length (routines s))%nat; simpl in Hy;
          [injection Hy as <-; assumption |].
        rewrite lookup_nil in Hy. discriminate.
  - intros i c' r Hx Hp.
    apply lookup_app_Some in Hx as [Hx | [Hge _]]; [eauto |].
    apply lookup_ge_None in Hge.
    specialize (Hm i). pose proof (inv_fifo _ _ Hinv i) as Hf.
    rewrite Hge in Hm, Hf. simpl in Hm, Hf. tauto.
Qed.

Lemma accounting_next log s i c w e ev g w' :
  accounting log s ->
  routines s !! i = Some (c, Running w) ->
  iter_next c e (shared s) w ev g w' ->
  accounting (log ++ [(i, ev)]) (set_routine s i c (Running w') g (wg s)).
Proof.
  intros [Hr Ha Hm Hi] Hl Hnext.
  assert (Hlen : (i < length (routines s))%nat)
    by (eapply lookup_lt_Some; eassumption).
  pose proof (Hm i) as Hmi. rewrite Hl in Hmi. simpl in Hmi.
  split; simpl.
  - rewrite fetches_app, exhausts_app, fetches_single, exhausts_single.
    destruct Hnext; simpl; rewrite ?length_app; simpl; lia.
  - rewrite acks_app, acks_single.
    destruct Hnext; simpl; rewrite ?length_app; simpl; lia.
  - intros j. destruct (Nat.eq_dec i j) as [<- | Hne].
    + rewrite list_lookup_insert_eq by assumption. simpl.
      rewrite exhausted_by_app, exhausted_by_single, Nat.eqb_refl.
      destruct Hnext as [batch x Hlt Hd Hb Hx | Hlt Hd He | id rest Hids];
        simpl; rewrite Hmi; [lia | rewrite Hd; reflexivity | lia].
    + apply marked_at_insert_ne; auto. apply marked_at_other; auto.
  - intros j c' r Hj Hp.
    apply list_lookup_insert_Some in Hj as [(<- & [= <- <-] & _) | (Hne & Hj)].
    + destruct (Hi i c (Running w) Hl Hp) as [Hf He].
      rewrite fetched_by_app, exhausted_by_app, fetched_by_self,
        exhausted_by_single, Hf, He.
      destruct Hnext as [batch x Hlt Hd Hb Hx | Hlt Hd He' | id rest Hids];
        [lia | lia | auto].
    + destruct (Hi j c' r Hj Hp) as [Hf He].
      rewrite fetched_by_app, exhausted_by_app, exhausted_by_single.
      rewrite (fetched_by_other i j ev Hne), Hf, He.
      destruct (Nat.eqb_spec j i) as [-> | _]; [contradiction |].
      destruct ev; auto.
Qed.

Lemma accounting_step log s evs s' :
  invariant log s -> accounting log s -> live_step s evs s' ->
  accounting (log ++ evs) s'.
Proof.
  intros Hinv Hacc Hstep.
  destruct Hstep as [c | i c Hl | i c w e ev g w' Hl Hnext | i c w Hl | | Hw];
    rewrite ?app_nil_r.
  - apply accounting_spawn; assumption.
  - destruct Hacc as [Hr Ha Hm Hi]. split; simpl; auto.
    + intros j. destruct (Nat.eq_dec i j) as [<- | Hne].
      * rewrite list_lookup_insert_eq by (eapply lookup_lt_Some; eassumption).
        specialize (Hm i). rewrite Hl in Hm. exact Hm.
      * apply marked_at_insert_ne; auto.
    + intros j c' r Hj Hp.
      apply list_lookup_insert_Some in Hj as [(<- & [= <- <-] & _) | (_ & Hj)];
        eauto.
  - eapply accounting_next; eassumption.
  - destruct Hacc as [Hr Ha Hm Hi]. split; simpl; auto.
    + intros j. destruct (Nat.eq_dec i j) as [<- | Hne].
      * rewrite list_lookup_insert_eq by (eapply lookup_lt_Some; eassumption).
        specialize (Hm i). rewrite Hl in Hm. simpl in *.
        rewrite Hm. destruct (done w); lia.
      * apply marked_at_insert_ne; auto.
    + intros j c' r Hj Hp.
      apply list_lookup_insert_Some in Hj as [(<- & [= <- <-] & _) | (_ & Hj)];
        eauto.
  - destruct Hacc. split; simpl; assumption.
  - assumption.
Qed.

Lemma reachable_accounting log s : reachable log s -> accounting log s.
Proof.
  induction 1 as [| l s log evs s' Hreach IH Hstep].
  - apply accounting_init.
  - eapply accounting_step; [| eassumption |].
    + apply reachable_invariant. assumption.
    + eapply step_live; eassumption.
Qed.



(** X4.  Every consumer receives at most one empty reply: after it the
    source is marked exhausted and the consumer fetches no more, so it
    sends at most one [XREADGROUP] more than it fetched messages.  While a
    consumer runs, its mark is set exactly when that empty reply is in the
    log.  A consumer whose window size is not positive never fetches,
    acknowledges or receives anything. *)
Theorem one_empty_reply_per_consumer log s i :
  reachable log s ->
  (exhausted_by i log <= 1)%nat /\
  (forall c w,
      routines s !! i = Some (c, Running w) ->
      (done w = true <-> exhausted_by i log = 1%nat)) /\
  (forall c r,
      routines s !! i = Some (c, r) -> pcount c <= 0 ->
      fetched_by i log = [] /\ acked_by i log = [] /\
      exhausted_by i log = 0%nat).
Proof.
  intros Hreach.
  destruct (reachable_accounting _ _ Hreach) as [_ _ Hm Hi].
  pose proof (inv_fifo _ _ (reachable_invariant _ _ Hreach) i) as Hf.
  specialize (Hm i).
  refine (conj _ (conj _ _)).
  - destruct (routines s !! i) as [[c [| w |]] |]; simpl in Hm; try lia.
    destruct (done w); lia.
  - intros c w Hl. rewrite Hl in Hm. simpl in Hm. rewrite Hm.
    destruct (done w); split; auto; discriminate.
  - intros c r Hl Hp.
    destruct (Hi i c r Hl Hp) as [Hfe He].
    apply fifo_at_prefix in Hf. rewrite Hfe in Hf.
    apply prefix_nil_inv in Hf. auto.
Qed.

Lemma one_empty_reply_per_consumer_witness :
  reachable exhausted_log exhausted_state /\
  routines exhausted_state !! 0%nat
  = Some (sample_consumer 2,
          Running {| ids := [sample_id 0]; done := true; entries := [] |}) /\
  exhausted_by 0 exhausted_log = 1%nat.
Proof.
  assert (Hreach : reachable exhausted_log exhausted_state)
    by (apply (run_reachable exhausted_schedule [] init_system);
        [apply reach_init | reflexivity]).
  assert (Hl : routines exhausted_state !! 0%nat
               = Some (sample_consumer 2,
                       Running {| ids := [sample_id 0]; done := true;
                                  entries := [] |})) by reflexivity.
  split; [exact Hreach | split; [exact Hl |]].
  exact (proj1 (proj1 (proj2 (one_empty_reply_per_consumer _ _ 0%nat Hreach))
                  _ _ Hl) eq_refl).
Defined.

(** ** Returning and stopping *)






(** X7.  The only ways an iteration ends the process.  It is fatal exactly
    when it takes the fetch or the acknowledge branch and either the
    command fails, with the error of the command as message, or the command
    succeeds and [RecordValue] fails, with the message of line 47 or 67.  It
    panics exactly when it takes the fetch branch, both calls succeed and
    the reply is not empty but delivers no entry.  In no other case does a
    consumer stop the process, and in these cases nothing is counted. *)
Theorem iteration_ends_process_iff c stop e g w :
  (forall msg,
      iteration c stop e g w = Fatal msg <->
      (select_branch c stop w = BrFetch \/ select_branch c stop w = BrAck) /\
      (cmd_err e = Some msg \/
       cmd_err e = None /\
       exists err, rec_err e = Some err /\ msg = record_fatal err)) /\
  (iteration c stop e g w = Panic <->
   select_branch c stop w = BrFetch /\ cmd_err e = None /\ rec_err e = None /\
   cmd_reply e <> [] /\ delivered (cmd_reply e) = None).
Proof.
  unfold iteration.
  destruct (select_branch c stop w) eqn:Hsel.
  - split; [intros msg |]; outcome_cases.
  - unfold fetch, delivered.
    destruct (cmd_err e) as [cerr |]; [split; [intros msg |]; outcome_cases |].
    destruct (rec_err e) as [rerr |]; [split; [intros msg |]; outcome_cases |].
    destruct (cmd_reply e) as [| batch bs]; simpl;
      [split; [intros msg |]; outcome_cases |].
    destruct (Entries batch) as [| x xs]; simpl;
      split; [intros msg | | intros msg |]; outcome_cases.
  - apply select_branch_ack in Hsel as (_ & Hne & _).
    unfold ack. destruct (ids w) as [| id q]; [congruence |]. simpl.
    destruct (cmd_err e) as [cerr |]; [split; [intros msg |]; outcome_cases |].
    destruct (rec_err e) as [rerr |]; split; [intros msg | | intros msg |];
      outcome_cases.
  - split; [intros msg |]; outcome_cases.
Qed.

(** ** When the reporter returns, and what its series adds up to *)

Lemma updateCLI_step_goes_on count ev r :
  (exists r', updateCLI_step count ev r = inl r') <-> goes_on count ev.
Proof.
  unfold goes_on.
  destruct ev as [g now now_start now_end | g now_end]; simpl.
  - destruct (Z.eqb_spec (totalMessagesAcked g) count) as [Heq | Hne].
    + split; [intros [r' H]; discriminate H | intros [_ H]; contradiction].
    + split; [auto | eauto].
  - split; [intros [r' H]; discriminate H | intros [H _]; discriminate H].
Qed.

(** X8.  The reporter returns at a turn of its loop exactly when that turn
    is the signal case or a tick at which [totalMessagesAcked] is equal to
    the target; so it is still running after a sequence of turns exactly
    when all of them were ticks at which the count differed from the
    target.  A count that has passed the target without being seen equal to
    it does not end the run. *)
Theorem reporter_runs_until_exact_target count evs : forall r,
  (exists r', updateCLI_turns count evs r = Some r') <->
  List.Forall (goes_on count) evs.
Proof.
  induction evs as [| ev evs IH]; intros r; simpl.
  - split; [constructor | eauto].
  - destruct (updateCLI_step count ev r) as [r1 | res] eqn:Hstep.
    + rewrite IH. split.
      * intros H. constructor; [| assumption].
        apply (updateCLI_step_goes_on count ev r). eauto.
      * intros H. inversion H. assumption.
    + split; [intros [r' H]; discriminate H |].
      intros H. inversion H as [| x l Hgo _]. subst.
      apply (updateCLI_step_goes_on count ev r) in Hgo as [r' Hr'].
      congruence.
Qed.

Lemma reporter_runs_until_exact_target_witness :
  List.Forall (goes_on 5) overshoot_ticks /\
  exists r', updateCLI_turns 5 overshoot_ticks (init_reporter 0 1) = Some r' /\
             prevMessageCount r' = 10.
Proof.
  assert (H : List.Forall (goes_on 5) overshoot_ticks).
  { repeat constructor; simpl; discriminate. }
  split; [exact H |].
  destruct (proj2 (reporter_runs_until_exact_target 5 overshoot_ticks
                     (init_reporter 0 1)) H) as [r' Hr'].
  exists r'. split; [exact Hr' |].
  assert (Hc : updateCLI_turns 5 overshoot_ticks (init_reporter 0 1)
               = Some {| start := 2001; prevTime := 6000;
                         prevMessageCount := 10;
                         messageRateTs :=
                           [{| messages := 4; took := 1000 |};
                            {| messages := 3; took := 1000 |};
                            {| messages := 2; took := 1000 |};
                            {| messages := 1; took := 1000 |};
                            {| messages := 0; took := 1000 |}] |})
    by reflexivity.
  rewrite Hc in Hr'. injection Hr' as <-. reflexivity.
Defined.





(** ** The errors of the orchestrator *)




(** ** The wait group and the shutdown *)

Lemma active_bounds rs : 0 <= active rs <= Z.of_nat (length rs).
Proof.
  unfold active. induction rs as [| r rs IH]; simpl; [lia |].
  destruct (exited r); lia.
Qed.

Lemma active_all_exited rs :
  List.Forall (fun r => exited r = true) rs -> active rs = 0.
Proof.
  unfold active. induction 1 as [| r rs Hr _ IH]; simpl; [reflexivity |].
  rewrite Hr, IH. reflexivity.
Qed.

(** X11.  In every reachable state the wait-group counter is the number of
    goroutines started and not yet returned: it is never negative (no
    [wg.Done()] without its [wg.Add(1)]), it is at most the number of
    goroutines started, and [wg.Wait()] can return exactly when every
    goroutine started has returned. *)
Theorem wait_group_counts_live_goroutines log s :
  reachable log s ->
  wg s = active (routines s) /\
  0 <= wg s <= Z.of_nat (length (routines s)) /\
  (step LWait s = Some ([], Live s) <->
   List.Forall (fun r => exited r = true) (routines s)) /\
  (step LWait s = None <->
   ~ List.Forall (fun r => exited r = true) (routines s)).
Proof.
  intros Hreach.
  pose proof (inv_wg _ _ (reachable_invariant _ _ Hreach)) as Hwg.
  pose proof (active_bounds (routines s)) as Hb.
  assert (Hiff : wg s = 0 <->
                 List.Forall (fun r => exited r = true) (routines s)).
  { rewrite Hwg. split; [apply active_zero | apply active_all_exited]. }
  refine (conj Hwg (conj _ (conj _ _))).
  - lia.
  - rewrite <- Hiff. simpl.
    destruct (Z.eqb_spec (wg s) 0); split; intros H;
      try discriminate H; try contradiction; auto.
  - rewrite <- Hiff. simpl.
    destruct (Z.eqb_spec (wg s) 0); split; intros H;
      try discriminate H; try contradiction; auto.
Qed.

Lemma wait_group_counts_live_goroutines_witness :
  reachable sample_log sample_state /\
  wg sample_state = 1 /\
  step LWait sample_state = None.
Proof.
  assert (Hreach : reachable sample_log sample_state)
    by (apply (run_reachable sample_schedule [] init_system);
        [apply reach_init | reflexivity]).
  split; [exact Hreach | split; [reflexivity |]].
  apply (proj2 (proj2 (proj2 (wait_group_counts_live_goroutines _ _ Hreach)))).
  intros H. inversion H as [| r rs Hr _]. discriminate Hr.
Defined.







(** ** The start of the measured interval *)




(** ** A whole run *)


